(** * MP4 compressor: argument assembly and job orchestration

    A shallow embedding of [src/index.js] (the [MP4Compressor] component):
    the argument list that [start] assembles for the encoder, the [log] and
    [progress] event handlers registered on the encoder, the capped log
    buffer, the Start button's guard, the state resets of [onDrop] and
    [start], and the cleanup of the encoder's virtual storage. *)

From Stdlib Require Import ZArith QArith Qround Qabs Lqa Lia Ascii String.
From stdpp Require Import base list strings gmap pretty.

Local Open Scope string_scope.
Local Open Scope list_scope.
Local Open Scope nat_scope.

(** ** JavaScript numbers

    The component only ever multiplies by 100, rounds, takes a minimum with
    100, compares with 95 and adds 0.5.  Finite numbers are modelled as
    exact rationals (kept in lowest terms), next to the three special
    values the handlers can meet: [NaN] and the two infinities.  The
    rounding error of a finite double and the sign of zero are not
    modelled. *)
Module Num.

Inductive number : Type :=
| NaN
| NegInf
| PosInf
| Fin (q : Q).

Definition of_Z (z : Z) : number := Fin (inject_Z z).

(** [Number.isNaN(x)] *)
Definition isNaN (x : number) : bool :=
  match x with NaN => true | _ => false end.

(** [x * y] *)
Definition mul (x y : number) : number :=
  match x, y with
  | NaN, _ | _, NaN => NaN
  | Fin a, Fin b => Fin (Qred (a * b)%Q)
  | Fin a, PosInf | PosInf, Fin a =>
      match (a ?= 0)%Q with Eq => NaN | Gt => PosInf | Lt => NegInf end
  | Fin a, NegInf | NegInf, Fin a =>
      match (a ?= 0)%Q with Eq => NaN | Gt => NegInf | Lt => PosInf end
  | PosInf, PosInf | NegInf, NegInf => PosInf
  | PosInf, NegInf | NegInf, PosInf => NegInf
  end.

(** [x + y] *)
Definition add (x y : number) : number :=
  match x, y with
  | NaN, _ | _, NaN => NaN
  | Fin a, Fin b => Fin (Qred (a + b)%Q)
  | PosInf, NegInf | NegInf, PosInf => NaN
  | PosInf, _ | _, PosInf => PosInf
  | NegInf, _ | _, NegInf => NegInf
  end.

(** [x < y]: false as soon as one side is [NaN]. *)
Definition lt (x y : number) : bool :=
  match x, y with
  | NaN, _ | _, NaN => false
  | Fin a, Fin b => match (a ?= b)%Q with Lt => true | _ => false end
  | NegInf, NegInf | PosInf, _ => false
  | NegInf, _ => true
  | Fin _, PosInf => true
  | Fin _, NegInf => false
  end.

(** [x <= y] *)
Definition le (x y : number) : bool :=
  match x, y with
  | NaN, _ | _, NaN => false
  | Fin a, Fin b => match (a ?= b)%Q with Gt => false | _ => true end
  | NegInf, _ => true
  | _, PosInf => true
  | PosInf, _ => false
  | Fin _, NegInf => false
  end.

(** [Math.round(x)]: the nearest integer, a tie going up. *)
Definition round (x : number) : number :=
  match x with
  | Fin q => of_Z (Qfloor (q + (1 # 2))%Q)
  | other => other
  end.

(** [Math.min(x, y)] *)
Definition min (x y : number) : number :=
  match x, y with
  | NaN, _ | _, NaN => NaN
  | _, _ => if lt y x then y else x
  end.

End Num.
Import Num.

(** ** The regular expression of the log handler

    [/time=\d{2}:\d{2}:\d{2}/] is a sequence of single-character classes,
    searched for anywhere in the message. *)
Module Regex.

Definition is_digit (c : ascii) : bool :=
  (48 <=? nat_of_ascii c)%nat && (nat_of_ascii c <=? 57)%nat.

Definition lit (a : ascii) (c : ascii) : bool := Ascii.eqb a c.

(** The pattern matches at the start of [s]. *)
Fixpoint match_here (pat : list (ascii → bool)) (s : string) : bool :=
  match pat with
  | [] => true
  | p :: pat' =>
      match s with
      | EmptyString => false
      | String c s' => p c && match_here pat' s'
      end
  end.

(** [re.test(s)] for an unanchored pattern. *)
Fixpoint test (pat : list (ascii → bool)) (s : string) : bool :=
  match_here pat s ||
  match s with
  | EmptyString => false
  | String _ s' => test pat s'
  end.

Definition time_pattern : list (ascii → bool) :=
  [lit "t"; lit "i"; lit "m"; lit "e"; lit "=";
   is_digit; is_digit; lit ":"; is_digit; is_digit; lit ":";
   is_digit; is_digit]%char.

End Regex.

(** ** Options and the argument list of [start] *)

Record Options : Type := mkOptions {
  preset : string;
  crf : Z;
  resolution : string;
  audioBitrate : string;
  copyMetadata : bool
}.

(** The initial values of the five option states. *)
Definition defaultOptions : Options :=
  {| preset := "medium"; crf := 23; resolution := "source";
     audioBitrate := "128k"; copyMetadata := true |}.

Definition setPreset (v : string) (o : Options) : Options :=
  mkOptions v (crf o) (resolution o) (audioBitrate o) (copyMetadata o).
Definition setCrf (v : Z) (o : Options) : Options :=
  mkOptions (preset o) v (resolution o) (audioBitrate o) (copyMetadata o).
Definition setResolution (v : string) (o : Options) : Options :=
  mkOptions (preset o) (crf o) v (audioBitrate o) (copyMetadata o).
Definition setAudioBitrate (v : string) (o : Options) : Options :=
  mkOptions (preset o) (crf o) (resolution o) v (copyMetadata o).
Definition setCopyMetadata (v : bool) (o : Options) : Options :=
  mkOptions (preset o) (crf o) (resolution o) (audioBitrate o) v.

(** The values the form controls offer. *)
Definition presetOptions : list string :=
  ["ultrafast"; "superfast"; "veryfast"; "faster"; "fast"; "medium";
   "slow"; "slower"; "veryslow"].
Definition resolutionOptions : list string :=
  ["source"; "1080p"; "720p"; "480p"].
Definition audioBitrateOptions : list string :=
  ["64k"; "96k"; "128k"; "160k"; "192k"; "256k"].
Definition crfMin : Z := 18.
Definition crfMax : Z := 28.

Definition valid (o : Options) : Prop :=
  preset o ∈ presetOptions ∧
  (crfMin ≤ crf o ≤ crfMax)%Z ∧
  resolution o ∈ resolutionOptions ∧
  audioBitrate o ∈ audioBitrateOptions.

Definition inputName : string := "input.mp4".
Definition outputName : string := "output.mp4".

(** [String(n)] and [`${n}`] for an integer [n]. *)
Definition String_of (n : Z) : string := pretty n.

(** The height the scale filter asks for. *)
Definition scaleHeight (resolution : string) : Z :=
  if String.eqb resolution "1080p" then 1080
  else if String.eqb resolution "720p" then 720
  else 480.

(** The argument list [start] builds, one [let] per [args.push]. *)
Definition buildArgs (o : Options) : list string :=
  let args := ["-i"; inputName] in
  let args :=
    if copyMetadata o
    then args ++ ["-map_metadata"; "0"; "-movflags"; "use_metadata_tags"]
    else args in
  let args :=
    args ++ ["-c:v"; "libx264"; "-preset"; preset o; "-crf"; String_of (crf o)] in
  let args :=
    if negb (String.eqb (resolution o) "source")
    then
      let height := scaleHeight (resolution o) in
      args ++ ["-vf"; "scale=-2:" +:+ String_of height]
    else args in
  let args := args ++ ["-c:a"; "aac"; "-b:a"; audioBitrate o] in
  let args := args ++ ["-movflags"; "+faststart"] in
  args ++ [outputName].

(** ** The component's state

    One field per [useState] hook; the five option hooks are grouped in
    [options].  ([loadingMsg], [origSize] and [outSize] only feed the
    rendering and are left out.) *)

Definition bytes : Type := list Byte.byte.

(** A picked [File]: its name and what [fetchFile] reads from it. *)
Record File : Type := mkFile {
  name : string;
  content : bytes
}.

(** [new Blob([data], { type: "video/mp4" })] *)
Definition Blob : Type := bytes.

Record State : Type := mkState {
  ffmpegReady : bool;
  logLines : list string;
  file : option File;
  outputBlob : option Blob;
  processing : bool;
  progress : number;
  options : Options
}.

Definition initialState : State :=
  {| ffmpegReady := false; logLines := []; file := None; outputBlob := None;
     processing := false; progress := of_Z 0; options := defaultOptions |}.

Definition setFfmpegReady (v : bool) (s : State) : State :=
  mkState v (logLines s) (file s) (outputBlob s) (processing s) (progress s) (options s).
Definition setLogLines (v : list string) (s : State) : State :=
  mkState (ffmpegReady s) v (file s) (outputBlob s) (processing s) (progress s) (options s).
Definition setFile (v : option File) (s : State) : State :=
  mkState (ffmpegReady s) (logLines s) v (outputBlob s) (processing s) (progress s) (options s).
Definition setOutputBlob (v : option Blob) (s : State) : State :=
  mkState (ffmpegReady s) (logLines s) (file s) v (processing s) (progress s) (options s).
Definition setProcessing (v : bool) (s : State) : State :=
  mkState (ffmpegReady s) (logLines s) (file s) (outputBlob s) v (progress s) (options s).
Definition setProgress (v : number) (s : State) : State :=
  mkState (ffmpegReady s) (logLines s) (file s) (outputBlob s) (processing s) v (options s).
Definition setOptions (v : Options) (s : State) : State :=
  mkState (ffmpegReady s) (logLines s) (file s) (outputBlob s) (processing s) (progress s) v.

(** ** The event handlers registered on the encoder *)

(** [l.slice(-n)]: the last [n] elements, all of [l] when it is shorter. *)
Definition slice_last {A} (n : nat) (l : list A) : list A :=
  drop (length l - n) l.

Definition logCap : nat := 200.

(** The updater [(p) => (p < 95 ? p + 0.5 : p)]. *)
Definition nudge (p : number) : number :=
  if lt p (of_Z 95) then add p (Fin (1 # 2)) else p.

(** [ffmpeg.on("log", ...)]: the updater given to [setLogLines], with the
    [setProgress] it issues on the way, run once per log event.  (Under
    [React.StrictMode] a development build may run an updater twice; the
    bound on nudges below is stated for any number of them.) *)
Definition onLog (message : string) (s : State) : State :=
  let prev := logLines s in
  let next := prev ++ [message] in
  let s :=
    if Regex.test Regex.time_pattern message
    then setProgress (nudge (progress s)) s
    else s in
  setLogLines (slice_last logCap next) s.

(** [ffmpeg.on("progress", ...)] *)
Definition onProgress (p : number) (s : State) : State :=
  if negb (isNaN p)
  then setProgress (min (of_Z 100) (round (mul p (of_Z 100)))) s
  else s.

(** [onDrop] *)
Definition onDrop (picked : File) (s : State) : State :=
  let s := setFile (Some picked) s in
  let s := setOutputBlob None s in
  let s := setLogLines [] s in
  setProgress (of_Z 0) s.

(** The [disabled] attribute of the Start button. *)
Definition startDisabled (s : State) : bool :=
  negb (ffmpegReady s) || negb (bool_decide (is_Some (file s))) || processing s.

(** ** The encoder's virtual storage

    [writeFile], [readFile] and [deleteFile] belong to the encoder: each
    either settles with a new storage (and a value) or rejects, which is
    [None] here. *)
Class Storage (FS : Type) : Type := {
  fs_write : string → bytes → FS → option FS;
  fs_read : string → FS → option bytes;
  fs_delete : string → FS → option FS
}.

(** An in-memory storage: writing always works, reading or deleting a
    name that is not there rejects. *)
#[export] Instance memfs : Storage (gmap string bytes) := {|
  fs_write n d fs := Some (<[n := d]> fs);
  fs_read n fs := fs !! n;
  fs_delete n fs := match fs !! n with Some _ => Some (delete n fs) | None => None end
|}.

(** What the component asks of the encoder, in the order it asks. *)
Inductive Call : Type :=
| CallWriteFile (n : string) (d : bytes)
| CallExec (args : list string)
| CallReadFile (n : string)
| CallDeleteFile (n : string).

(** How [ffmpeg.exec] settles: the storage the run leaves behind, and
    whether the promise resolved or rejected. *)
Inductive ExecResult (FS : Type) : Type :=
| ExecResolved (fs' : FS)
| ExecRejected (fs' : FS).
Arguments ExecResolved {FS} fs'.
Arguments ExecRejected {FS} fs'.

(** The component together with what surrounds it. *)
Record World (FS : Type) : Type := mkWorld {
  ui : State;
  ffmpegRef : bool;            (* [ffmpegRef.current] is set *)
  loading : bool;              (* [ffmpeg.load] has not settled yet *)
  storage : FS;
  calls : list Call;           (* oldest first *)
  pending : list (list string);(* [exec] promises that have not settled *)
  alerts : list string         (* what [alert] has shown, oldest first *)
}.
Arguments mkWorld {FS}.
Arguments ui {FS}.
Arguments ffmpegRef {FS}.
Arguments loading {FS}.
Arguments storage {FS}.
Arguments calls {FS}.
Arguments pending {FS}.
Arguments alerts {FS}.

Definition initialWorld {FS} (fs0 : FS) : World FS :=
  {| ui := initialState; ffmpegRef := false; loading := false; storage := fs0;
     calls := []; pending := []; alerts := [] |}.

(** ** A state monad with exceptions

    An [async] function body threads the world and may throw; what it has
    done before throwing stays done. *)
Inductive Result (A : Type) : Type :=
| Ok (a : A)
| Throw.
Arguments Ok {A} a.
Arguments Throw {A}.

Definition M (FS A : Type) : Type := World FS → Result A * World FS.

#[export] Instance M_ret {FS} : MRet (M FS) := λ A a w, (Ok a, w).

#[export] Instance M_bind {FS} : MBind (M FS) := λ A B k m w,
  match m w with
  | (Ok a, w') => k a w'
  | (Throw, w') => (Throw, w')
  end.

(** [try { m } catch { h }] *)
Definition tryCatch {FS A} (m h : M FS A) : M FS A :=
  λ w, match m w with
       | (Ok a, w') => (Ok a, w')
       | (Throw, w') => h w'
       end.

(** [try { m } finally { f }] *)
Definition tryFinally {FS A} (m : M FS A) (f : M FS unit) : M FS A :=
  λ w, let '(r, w') := m w in
       match f w' with
       | (Ok _, w'') => (r, w'')
       | (Throw, w'') => (Throw, w'')
       end.

(** ** The orchestration of a run *)
Section Orchestrator.
Context {FS : Type} `{!Storage FS}.

Definition getState : M FS State := λ w, (Ok (ui w), w).
Definition getRef : M FS bool := λ w, (Ok (ffmpegRef w), w).

(** A state setter called from [start]. *)
Definition setState (f : State → State) : M FS unit := λ w,
  (Ok (), mkWorld (f (ui w)) (ffmpegRef w) (loading w) (storage w)
                  (calls w) (pending w) (alerts w)).

Definition record_call (c : Call) (w : World FS) : World FS :=
  mkWorld (ui w) (ffmpegRef w) (loading w) (storage w)
          (calls w ++ [c]) (pending w) (alerts w).

Definition with_storage (fs : FS) (w : World FS) : World FS :=
  mkWorld (ui w) (ffmpegRef w) (loading w) fs
          (calls w) (pending w) (alerts w).

Definition with_pending (p : list (list string)) (w : World FS) : World FS :=
  mkWorld (ui w) (ffmpegRef w) (loading w) (storage w) (calls w) p (alerts w).

(** [await ffmpeg.writeFile(n, d)] *)
Definition writeFile (n : string) (d : bytes) : M FS unit := λ w,
  let w := record_call (CallWriteFile n d) w in
  match fs_write n d (storage w) with
  | Some fs' => (Ok (), with_storage fs' w)
  | None => (Throw, w)
  end.

(** [await ffmpeg.readFile(n)] *)
Definition readFile (n : string) : M FS bytes := λ w,
  let w := record_call (CallReadFile n) w in
  match fs_read n (storage w) with
  | Some d => (Ok d, w)
  | None => (Throw, w)
  end.

(** [await ffmpeg.deleteFile(n)] *)
Definition deleteFile (n : string) : M FS unit := λ w,
  let w := record_call (CallDeleteFile n) w in
  match fs_delete n (storage w) with
  | Some fs' => (Ok (), with_storage fs' w)
  | None => (Throw, w)
  end.

(** [alert(msg)] *)
Definition alert (msg : string) : M FS unit := λ w,
  (Ok (), mkWorld (ui w) (ffmpegRef w) (loading w) (storage w)
                  (calls w) (pending w) (alerts w ++ [msg])).

(** [ffmpeg.exec(args)] is issued: the promise is now pending. *)
Definition issueExec (args : list string) : M FS unit := λ w,
  let w := record_call (CallExec args) w in
  (Ok (), with_pending (pending w ++ [args]) w).

(** The awaited [exec] promise settles. *)
Definition settleExec (res : ExecResult FS) : M FS unit := λ w,
  match res with
  | ExecResolved fs' => (Ok (), with_storage fs' w)
  | ExecRejected fs' => (Throw, with_storage fs' w)
  end.

(** [start], from its first line to the point where it awaits
    [ffmpeg.exec(args)].  The component's values ([file], the options) are
    those of the render the click happened in, that is, of the state at the
    click.  [fetchFile] is taken to succeed, and the await of [writeFile]
    to settle before anything else happens; a rejected [writeFile] is
    outside of the [try] and ends [start] there. *)
Definition start_issue : M FS unit :=
  s ← getState;
  ref ← getRef;
  match file s with
  | Some f =>
      if negb ref then mret ()
      else
        setState (setProcessing true);;
        setState (setOutputBlob None);;
        setState (setProgress (of_Z 0));;
        writeFile inputName (content f);;
        let args := buildArgs (options s) in
        issueExec args
  | None => mret ()
  end.

(** The cleanup of the virtual storage in the [finally] block. *)
Definition cleanup : M FS unit :=
  tryCatch
    (deleteFile inputName;;
     deleteFile outputName)
    (mret ()).

(** [start], from the point where the awaited [exec] settles to its end;
    the awaits of [readFile] and [deleteFile] are taken to settle before
    anything else happens.  ([console.error] leaves no trace here.) *)
Definition start_resume (res : ExecResult FS) : M FS unit :=
  tryFinally
    (tryCatch
       (settleExec res;;
        data ← readFile outputName;
        let blob : Blob := data in
        setState (setOutputBlob (Some blob));;
        setState (setProgress (of_Z 100)))
       (alert "Encoding failed. See log below for details."))
    (setState (setProcessing false);;
     cleanup).

(** [load], called once by the mount effect, up to [await ffmpeg.load]. *)
Definition load_issue (w : World FS) : World FS :=
  if ffmpegRef w then w
  else mkWorld (ui w) true true (storage w) (calls w) (pending w) (alerts w).

(** [load], once [ffmpeg.load] has settled. *)
Definition load_resume (ok : bool) (w : World FS) : World FS :=
  if loading w
  then mkWorld (if ok then setFfmpegReady true (ui w) else ui w)
               (ffmpegRef w) false (storage w) (calls w) (pending w) (alerts w)
  else w.

(** What can happen to the component: the mount effect, the encoder's
    load settling, the user's picks and clicks, the encoder's log and
    progress events, and a pending [exec] settling. *)
Inductive Event : Type :=
| Mount
| LoadSettled (ok : bool)
| PickFile (picked : File)
| SetPreset (v : string)
| SetCrf (v : Z)
| SetResolution (v : string)
| SetAudioBitrate (v : string)
| SetCopyMetadata (v : bool)
| ClickStart
| Log (message : string)
| Progress (p : number)
| ExecSettled (res : ExecResult FS).

Definition on_ui (f : State → State) (w : World FS) : World FS :=
  mkWorld (f (ui w)) (ffmpegRef w) (loading w) (storage w)
          (calls w) (pending w) (alerts w).

Definition step (e : Event) (w : World FS) : World FS :=
  match e with
  | Mount => load_issue w
  | LoadSettled ok => load_resume ok w
  | PickFile picked => on_ui (onDrop picked) w
  | SetPreset v => on_ui (λ s, setOptions (setPreset v (options s)) s) w
  | SetCrf v => on_ui (λ s, setOptions (setCrf v (options s)) s) w
  | SetResolution v => on_ui (λ s, setOptions (setResolution v (options s)) s) w
  | SetAudioBitrate v => on_ui (λ s, setOptions (setAudioBitrate v (options s)) s) w
  | SetCopyMetadata v => on_ui (λ s, setOptions (setCopyMetadata v (options s)) s) w
  | ClickStart =>
      (* a disabled button does not call [onClick] *)
      if startDisabled (ui w) then w else snd (start_issue w)
  | Log message => on_ui (onLog message) w
  | Progress p => on_ui (onProgress p) w
  | ExecSettled res =>
      match pending w with
      | [] => w
      | _ :: rest => snd (start_resume res (with_pending rest w))
      end
  end.

Definition run (evs : list Event) (w : World FS) : World FS :=
  foldl (λ w e, step e w) w evs.

End Orchestrator.
Arguments Event : clear implicits.

(** ** Vocabulary of the statements *)

(** How often the token [t] occurs in an argument list. *)
Definition occurrences (t : string) (l : list string) : nat :=
  length (List.filter (String.eqb t) l).

(** A scale filter is a token that starts with [scale=]. *)
Definition is_scale_filter (t : string) : bool := String.prefix "scale=" t.

(** Every valid choice of options, control by control. *)
Definition allValid : list Options :=
  p ← presetOptions; q ← seqZ crfMin (crfMax - crfMin + 1);
  r ← resolutionOptions; a ← audioBitrateOptions; m ← [true; false];
  [mkOptions p q r a m].

(** The events the encoder emits during a run. *)
Definition encoderEvent {FS} (e : Event FS) : bool :=
  match e with
  | Log _ | Progress _ => true
  | _ => false
  end.

(** The payloads of the explicit progress events of a trace. *)
Definition payloads {FS} (evs : list (Event FS)) : list number :=
  omap (λ e, match e with Progress p => Some p | _ => None end) evs.

(** A progress value a reader can take for a percentage. *)
Definition inRange (p : number) : bool := le (of_Z 0) p && le p (of_Z 100).

(** Half of an integer, or minus infinity: the shape of every value the
    handlers store. *)
Definition halfIntegral (p : number) : Prop :=
  match p with
  | Fin q => ∃ k : Z, (q == k # 2)%Q
  | NegInf => True
  | _ => False
  end.

(** What every reachable world satisfies. *)
Definition invariant {FS} (w : World FS) : Prop :=
  halfIntegral (progress (ui w)) ∧
  length (logLines (ui w)) ≤ logCap ∧
  length (pending w) ≤ 1 ∧
  (pending w ≠ [] → processing (ui w) = true) ∧
  (loading w = true → ffmpegRef w = true) ∧
  (ffmpegReady (ui w) = true → ffmpegRef w = true).

(** A payload that rounds to 100 percent or more, which the progress
    handler turns into 100. *)
Definition completes (p : number) : bool :=
  le (of_Z 100) (round (mul p (of_Z 100))).

(** A payload that is [NaN] or at least 0. *)
Definition harmless (p : number) : bool := isNaN p || le (of_Z 0) p.

(** What the progress handler stores for a payload that is not [NaN]. *)
Definition percent (p : number) : number :=
  min (of_Z 100) (round (mul p (of_Z 100))).

(** The storage that the two deletions of the cleanup leave behind. *)
Definition cleaned {FS} `{!Storage FS} (fs : FS) : FS :=
  match fs_delete inputName fs with
  | None => fs
  | Some fs1 =>
      match fs_delete outputName fs1 with
      | None => fs1
      | Some fs2 => fs2
      end
  end.

(** The storage an [exec] leaves behind. *)
Definition storage_after {FS} (res : ExecResult FS) : FS :=
  match res with ExecResolved fs' | ExecRejected fs' => fs' end.

(** A picked file and two storages for the examples. *)
Definition clip : File := mkFile "clip.mp4" [Byte.x00; Byte.x01; Byte.x02].
Definition emptyStorage : gmap string bytes := ∅.
Definition encodedStorage : gmap string bytes :=
  <[outputName := [Byte.x07]]> (<[inputName := content clip]> ∅).

(** ** The rest of the component: sizes, download, further invariants *)

(** [s.endsWith(suffix)] *)
Definition endsWith (s suffix : string) : bool :=
  let n := String.length s in
  let m := String.length suffix in
  (m <=? n) && String.eqb (String.substring (n - m) m s) suffix.

(** The name [download] suggests: that of the picked file, with [.mp4]
    appended unless it ends with it. *)
Definition downloadName (n : string) : string :=
  if endsWith n ".mp4" then n else n +:+ ".mp4".

(** [download]: nothing without a result and a file; otherwise the anchor
    that is clicked carries the suggested name and the result. *)
Definition download (s : State) : option (string * Blob) :=
  match outputBlob s, file s with
  | Some blob, Some f => Some (downloadName (name f), blob)
  | _, _ => None
  end.

(** [file.size] and [blob.size] *)
Definition byteLength (b : bytes) : Z := Z.of_nat (length b).

Definition thresh : Z := 1024.
Definition units : list string := ["KB"; "MB"; "GB"; "TB"].

(** [b.toFixed(1)]: the nearest multiple of one tenth, a tie going away
    from zero, written with one decimal. *)
Definition toFixed1 (b : Q) : string :=
  let n := Qfloor (Qabs b * 10 + (1 # 2)) in
  (match (b ?= 0)%Q with Lt => "-" | _ => "" end) +:+
  String_of (n / 10) +:+ "." +:+ String_of (n mod 10).

(** [do { b /= thresh; ++u; } while (Math.abs(b) >= thresh && u <
    units.length - 1)]: one body per level of fuel, and one more. *)
Fixpoint humanSize_loop (fuel : nat) (b : Q) (u : Z) : Q * Z :=
  let b := (b / inject_Z thresh)%Q in
  let u := (u + 1)%Z in
  match fuel with
  | O => (b, u)
  | S fuel' =>
      if Qle_bool (inject_Z thresh) (Qabs b) &&
         (u <? Z.of_nat (length units) - 1)%Z
      then humanSize_loop fuel' b u
      else (b, u)
  end.

(** [humanSize], for an integer number of bytes ([None] is [undefined]).
    Dividing an integer double by 1024 is exact, so the rationals are the
    values the code computes (for sizes below 2^53). *)
Definition humanSize (size : option Z) : string :=
  match size with
  | None => ""
  | Some n =>
      if (Z.abs n <? thresh)%Z then String_of n +:+ " B"
      else
        let '(b, u) := humanSize_loop 3 (inject_Z n) (-1) in
        toFixed1 b +:+ " " +:+ default "undefined" (units !! Z.to_nat u)
  end.

(** The two size states, and the two effects that set them: each runs
    when its dependency has changed and stores the size of a value that is
    there. *)
Record Sizes : Type := mkSizes {
  origSize : option Z;
  outSize : option Z
}.

Definition initialSizes : Sizes := mkSizes None None.

Definition sizeEffects (s : State) (z : Sizes) : Sizes :=
  let z :=
    match file s with
    | Some f => mkSizes (Some (byteLength (content f))) (outSize z)
    | None => z
    end in
  match outputBlob s with
  | Some blob => mkSizes (origSize z) (Some (byteLength blob))
  | None => z
  end.

(** A step of the component followed by its size effects. *)
Definition stepView {FS} `{!Storage FS} (e : Event FS)
    (v : World FS * Sizes) : World FS * Sizes :=
  let w' := step e (fst v) in
  (w', sizeEffects (ui w') (snd v)).

Definition runView {FS} `{!Storage FS} (evs : list (Event FS))
    (v : World FS * Sizes) : World FS * Sizes :=
  foldl (λ v e, stepView e v) v evs.

(** A storage that rejects everything, as one that is full or gone. *)
Definition rejecting : Storage unit :=
  {| fs_write _ _ _ := None; fs_read _ _ := None; fs_delete _ _ := None |}.

(** Every [exec] in a list of calls comes right after a write of the
    input. *)
Definition execsFollowWrites (l : list Call) : Prop :=
  ∀ (i : nat) (args : list string),
    l !! i = Some (CallExec args) →
    ∃ (j : nat) (d : bytes),
      i = S j ∧ l !! j = Some (CallWriteFile inputName d).

(** What every reachable world satisfies besides [invariant]. *)
Definition resultInvariant {FS} (w : World FS) : Prop :=
  (pending w ≠ [] →
   outputBlob (ui w) = None ∧ file (ui w) ≠ None ∧
   ffmpegReady (ui w) = true) ∧
  (outputBlob (ui w) ≠ None → file (ui w) ≠ None) ∧
  (calls w ≠ [] → ffmpegReady (ui w) = true ∧ file (ui w) ≠ None) ∧
  execsFollowWrites (calls w).

(** What [start] leaves of the state once the awaited [exec] has settled. *)
Definition settled {FS} `{!Storage FS} (res : ExecResult FS) (s : State) : State :=
  setProcessing false
    match res with
    | ExecResolved fs' =>
        match fs_read outputName fs' with
        | Some data => setProgress (of_Z 100) (setOutputBlob (Some data) s)
        | None => s
        end
    | ExecRejected _ => s
    end.

(** The run did not produce a result. *)
Definition failed {FS} `{!Storage FS} (res : ExecResult FS) : Prop :=
  match res with
  | ExecResolved fs' => fs_read outputName fs' = None
  | ExecRejected _ => True
  end.

(** * Theorems *)

(** ** The argument list *)

Lemma valid_allValid o : valid o → o ∈ allValid.
Proof.
  destruct o as [p q r a m]. intros (Hp & Hq & Hr & Ha).
  unfold crfMin, crfMax in Hq. cbn in Hp, Hq, Hr, Ha.
  unfold allValid, crfMin, crfMax.
  apply list_elem_of_bind. exists p. split; [|done].
  apply list_elem_of_bind. exists q. split; [|apply elem_of_seqZ; lia].
  apply list_elem_of_bind. exists r. split; [|done].
  apply list_elem_of_bind. exists a. split; [|done].
  apply list_elem_of_bind. exists m. split; [|destruct m; repeat constructor].
  by apply list_elem_of_singleton.
Qed.

(** A boolean check holds of every valid choice of options as soon as it
    holds of each of the finitely many. *)
Lemma valid_enumeration (check : Options → bool) :
  forallb check allValid = true → ∀ o, valid o → check o = true.
Proof.
  intros Hall o Ho. rewrite forallb_forall in Hall.
  apply Hall, list_elem_of_In, valid_allValid, Ho.
Qed.

Ltac split_checks :=
  repeat match goal with
         | H : _ && _ = true |- _ => apply andb_prop in H as [? ?]
         | H : Nat.eqb _ _ = true |- _ => apply Nat.eqb_eq in H
         | H : String.eqb _ _ = true |- _ => apply String.eqb_eq in H
         | H : negb _ = true |- _ => apply negb_true_iff in H
         end.

Lemma valid_default : valid defaultOptions.
Proof.
  unfold valid, crfMin, crfMax; cbn.
  split; [repeat constructor|]. split; [lia|]. split; repeat constructor.
Qed.

(** The argument list as one concatenation: the input, the optional
    metadata flags, the video settings, the optional scale filter, the
    audio settings, fast-start and the output name. *)
Lemma buildArgs_shape o :
  buildArgs o =
    (["-i"; inputName] ++
     (if copyMetadata o
      then ["-map_metadata"; "0"; "-movflags"; "use_metadata_tags"] else [])) ++
    ["-c:v"; "libx264"; "-preset"; preset o; "-crf"; String_of (crf o)] ++
    (if negb (String.eqb (resolution o) "source")
     then ["-vf"; "scale=-2:" +:+ String_of (scaleHeight (resolution o))] else []) ++
    ["-c:a"; "aac"; "-b:a"; audioBitrate o; "-movflags"; "+faststart"; outputName].
Proof.
  unfold buildArgs.
  destruct (copyMetadata o), (negb (String.eqb (resolution o) "source")); reflexivity.
Qed.

(** The options of the specification's example. *)
Example buildArgs_example :
  buildArgs (mkOptions "medium" 23 "720p" "128k" true) =
    ["-i"; "input.mp4";
     "-map_metadata"; "0"; "-movflags"; "use_metadata_tags";
     "-c:v"; "libx264"; "-preset"; "medium"; "-crf"; "23";
     "-vf"; "scale=-2:720";
     "-c:a"; "aac"; "-b:a"; "128k";
     "-movflags"; "+faststart";
     "output.mp4"].
Proof. reflexivity. Qed.

Example buildArgs_default :
  buildArgs defaultOptions =
    ["-i"; "input.mp4";
     "-map_metadata"; "0"; "-movflags"; "use_metadata_tags";
     "-c:v"; "libx264"; "-preset"; "medium"; "-crf"; "23";
     "-c:a"; "aac"; "-b:a"; "128k";
     "-movflags"; "+faststart";
     "output.mp4"].
Proof. reflexivity. Qed.

Lemma flag_counts o :
  valid o →
  occurrences "-c:v" (buildArgs o) = 1 ∧
  occurrences "libx264" (buildArgs o) = 1 ∧
  occurrences "-preset" (buildArgs o) = 1 ∧
  occurrences "-crf" (buildArgs o) = 1 ∧
  occurrences "-c:a" (buildArgs o) = 1 ∧
  occurrences "aac" (buildArgs o) = 1 ∧
  occurrences "-b:a" (buildArgs o) = 1 ∧
  occurrences "+faststart" (buildArgs o) = 1 ∧
  occurrences (preset o) (buildArgs o) = 1 ∧
  occurrences (String_of (crf o)) (buildArgs o) = 1 ∧
  occurrences (audioBitrate o) (buildArgs o) = 1.
Proof.
  intros Ho.
  pose proof (valid_enumeration
    (λ o, let args := buildArgs o in
          Nat.eqb (occurrences "-c:v" args) 1 &&
          Nat.eqb (occurrences "libx264" args) 1 &&
          Nat.eqb (occurrences "-preset" args) 1 &&
          Nat.eqb (occurrences "-crf" args) 1 &&
          Nat.eqb (occurrences "-c:a" args) 1 &&
          Nat.eqb (occurrences "aac" args) 1 &&
          Nat.eqb (occurrences "-b:a" args) 1 &&
          Nat.eqb (occurrences "+faststart" args) 1 &&
          Nat.eqb (occurrences (preset o) args) 1 &&
          Nat.eqb (occurrences (String_of (crf o)) args) 1 &&
          Nat.eqb (occurrences (audioBitrate o) args) 1)
    ltac:(vm_compute; reflexivity) o Ho) as H.
  cbv beta zeta in H. split_checks. repeat split; assumption.
Qed.

(** C1.  For valid options the argument list is
    [... -c:v libx264 -preset <preset> -crf <crf> ... -c:a aac -b:a <bitrate>
    -movflags +faststart output.mp4]: the video codec, preset and quality
    flags, then the audio flags, then fast-start, then the output name as
    the last token; and each of these flags (and each of their values)
    occurs exactly once in the list. *)
Theorem args_flags_once_in_order (o : Options) :
  valid o →
  let args := buildArgs o in
  (∃ pre mid,
      args = pre ++
             ["-c:v"; "libx264"; "-preset"; preset o; "-crf"; String_of (crf o)] ++
             mid ++
             ["-c:a"; "aac"; "-b:a"; audioBitrate o] ++
             ["-movflags"; "+faststart"] ++
             [outputName]) ∧
  (occurrences "-c:v" args = 1 ∧ occurrences "libx264" args = 1) ∧
  (occurrences "-preset" args = 1 ∧ occurrences (preset o) args = 1) ∧
  (occurrences "-crf" args = 1 ∧ occurrences (String_of (crf o)) args = 1) ∧
  (occurrences "-c:a" args = 1 ∧ occurrences "aac" args = 1) ∧
  (occurrences "-b:a" args = 1 ∧ occurrences (audioBitrate o) args = 1) ∧
  occurrences "+faststart" args = 1 ∧
  last args = Some outputName.
Proof.
  intros Ho args.
  destruct (flag_counts o Ho) as (? & ? & ? & ? & ? & ? & ? & ? & ? & ? & ?).
  split; [|repeat split; try assumption].
  - subst args. rewrite buildArgs_shape. eexists _, _. reflexivity.
  - subst args. unfold buildArgs. cbv zeta. apply last_snoc.
Qed.

Lemma args_flags_once_in_order_witness :
  let args := buildArgs defaultOptions in
  occurrences "+faststart" args = 1 ∧ last args = Some outputName.
Proof.
  pose proof (args_flags_once_in_order defaultOptions valid_default) as H.
  cbv zeta in H. intuition.
Defined.

Lemma metadata_counts o :
  valid o →
  if copyMetadata o
  then occurrences "-map_metadata" (buildArgs o) = 1 ∧
       occurrences "0" (buildArgs o) = 1 ∧
       occurrences "use_metadata_tags" (buildArgs o) = 1 ∧
       occurrences "-movflags" (buildArgs o) = 2
  else occurrences "-map_metadata" (buildArgs o) = 0 ∧
       occurrences "0" (buildArgs o) = 0 ∧
       occurrences "use_metadata_tags" (buildArgs o) = 0 ∧
       occurrences "-movflags" (buildArgs o) = 1.
Proof.
  intros Ho.
  pose proof (valid_enumeration
    (λ o, let args := buildArgs o in
          let n := if copyMetadata o then 1 else 0 in
          Nat.eqb (occurrences "-map_metadata" args) n &&
          Nat.eqb (occurrences "0" args) n &&
          Nat.eqb (occurrences "use_metadata_tags" args) n &&
          Nat.eqb (occurrences "-movflags" args) (S n))
    ltac:(vm_compute; reflexivity) o Ho) as H.
  cbv beta zeta in H. split_checks.
  destruct (copyMetadata o); repeat split; assumption.
Qed.

(** C2.  For valid options: with [copyMetadata] on, the argument list
    starts [-i input.mp4 -map_metadata 0 -movflags use_metadata_tags -c:v],
    so the metadata flags stand before the video codec flag (and occur
    nowhere else); with [copyMetadata] off, none of [-map_metadata], [0]
    and [use_metadata_tags] occurs in the list, whose only [-movflags] is
    then the one of [-movflags +faststart]. *)
Theorem metadata_flags_before_codec (o : Options) :
  valid o →
  let args := buildArgs o in
  (copyMetadata o = true →
     (∃ rest,
         args = ["-i"; inputName;
                 "-map_metadata"; "0"; "-movflags"; "use_metadata_tags";
                 "-c:v"] ++ rest) ∧
     occurrences "-map_metadata" args = 1 ∧
     occurrences "0" args = 1 ∧
     occurrences "use_metadata_tags" args = 1 ∧
     occurrences "-c:v" args = 1) ∧
  (copyMetadata o = false →
     occurrences "-map_metadata" args = 0 ∧
     occurrences "0" args = 0 ∧
     occurrences "use_metadata_tags" args = 0 ∧
     occurrences "-movflags" args = 1 ∧
     (∃ front, args = front ++ ["-movflags"; "+faststart"; outputName])).
Proof.
  intros Ho args.
  pose proof (metadata_counts o Ho) as Hm.
  destruct (flag_counts o Ho) as (Hcv & _).
  split; intros Hc; rewrite Hc in Hm; destruct Hm as (? & ? & ? & ?).
  - repeat split; try assumption.
    subst args. rewrite buildArgs_shape, Hc. eexists. reflexivity.
  - repeat split; try assumption.
    subst args. unfold buildArgs. cbv zeta. rewrite <- app_assoc.
    eexists. reflexivity.
Qed.

Lemma metadata_flags_before_codec_witness :
  occurrences "-map_metadata" (buildArgs defaultOptions) = 1 ∧
  occurrences "use_metadata_tags"
    (buildArgs (setCopyMetadata false defaultOptions)) = 0.
Proof.
  split.
  - pose proof (metadata_flags_before_codec defaultOptions valid_default)
      as H.
    cbv zeta in H. destruct H as [Hon _].
    destruct (Hon eq_refl) as (_ & H & _). exact H.
  - assert (valid (setCopyMetadata false defaultOptions)) as Hv.
    { unfold valid, crfMin, crfMax; cbn.
      split; [repeat constructor|]. split; [lia|]. split; repeat constructor. }
    pose proof (metadata_flags_before_codec _ Hv) as H.
    cbv zeta in H. destruct H as [_ Hoff].
    destruct (Hoff eq_refl) as (_ & _ & H & _). exact H.
Defined.

Lemma scale_counts o :
  valid o →
  let args := buildArgs o in
  let height := scaleHeight (resolution o) in
  if String.eqb (resolution o) "source"
  then occurrences "-vf" args = 0 ∧ List.filter is_scale_filter args = []
  else resolution o = String_of height +:+ "p" ∧
       (height = 1080 ∨ height = 720 ∨ height = 480)%Z ∧
       occurrences "-vf" args = 1 ∧
       List.filter is_scale_filter args = ["scale=-2:" +:+ String_of height].
Proof.
  intros Ho.
  pose proof (valid_enumeration
    (λ o, let args := buildArgs o in
          let height := scaleHeight (resolution o) in
          if String.eqb (resolution o) "source"
          then Nat.eqb (occurrences "-vf" args) 0 &&
               Nat.eqb (length (List.filter is_scale_filter args)) 0
          else String.eqb (resolution o) (String_of height +:+ "p") &&
               (Z.eqb height 1080 || Z.eqb height 720 || Z.eqb height 480) &&
               Nat.eqb (occurrences "-vf" args) 1 &&
               match List.filter is_scale_filter args with
               | [t] => String.eqb t ("scale=-2:" +:+ String_of height)
               | _ => false
               end)
    ltac:(vm_compute; reflexivity) o Ho) as H.
  cbv beta zeta in H |- *.
  destruct (String.eqb (resolution o) "source"); split_checks.
  - split; [assumption|]. by apply nil_length_inv.
  - repeat split; try assumption.
    + rewrite !orb_true_iff, !Z.eqb_eq in *. tauto.
    + destruct (List.filter is_scale_filter (buildArgs o)) as [|t [|]];
        try discriminate.
      split_checks. congruence.
Qed.

(** C3.  For valid options: when [resolution] is [source] the argument
    list holds no [-vf] and no scale filter; otherwise it holds exactly one
    scale filter, the token [scale=-2:<height>] with the height named by
    the chosen resolution (1080, 720 or 480) and the width marker [-2],
    introduced by the only [-vf] of the list, right after the codec, preset
    and quality flags. *)
Theorem scale_filter_once_after_quality (o : Options) :
  valid o →
  let args := buildArgs o in
  let height := scaleHeight (resolution o) in
  (resolution o = "source" →
     occurrences "-vf" args = 0 ∧ List.filter is_scale_filter args = []) ∧
  (resolution o ≠ "source" →
     resolution o = String_of height +:+ "p" ∧
     (height = 1080 ∨ height = 720 ∨ height = 480)%Z ∧
     (∃ pre post,
         args = pre ++
                ["-c:v"; "libx264"; "-preset"; preset o; "-crf"; String_of (crf o)] ++
                ["-vf"; "scale=-2:" +:+ String_of height] ++
                post) ∧
     occurrences "-vf" args = 1 ∧
     List.filter is_scale_filter args = ["scale=-2:" +:+ String_of height]).
Proof.
  intros Ho args height.
  pose proof (scale_counts o Ho) as Hs. cbv zeta in Hs.
  fold args height in Hs.
  split; intros Hr.
  - rewrite Hr in Hs. exact Hs.
  - apply String.eqb_neq in Hr. rewrite Hr in Hs.
    destruct Hs as (? & ? & ? & ?). repeat split; try assumption.
    subst args height. rewrite buildArgs_shape, Hr. cbn [negb].
    eexists _, _. reflexivity.
Qed.

Lemma scale_filter_once_after_quality_witness :
  List.filter is_scale_filter (buildArgs defaultOptions) = [] ∧
  List.filter is_scale_filter (buildArgs (setResolution "720p" defaultOptions))
    = ["scale=-2:720"].
Proof.
  split.
  - pose proof (scale_filter_once_after_quality defaultOptions valid_default)
      as H.
    cbv zeta in H. destruct H as [Hsource _].
    destruct (Hsource eq_refl) as [_ H]. exact H.
  - assert (valid (setResolution "720p" defaultOptions)) as Hv.
    { unfold valid, crfMin, crfMax; cbn.
      split; [repeat constructor|]. split; [lia|]. split; repeat constructor. }
    pose proof (scale_filter_once_after_quality _ Hv) as H.
    cbv zeta in H. destruct H as [_ Hscaled].
    destruct Hscaled as (_ & _ & _ & _ & H); [discriminate|]. exact H.
Defined.

(** ** The log buffer *)

Example time_pattern_matches :
  Regex.test Regex.time_pattern
    "frame=   24 fps=0.0 q=28.0 size=       0kB time=00:00:01.00 bitrate=N/A"
    = true ∧
  Regex.test Regex.time_pattern "time=0:00:02.00" = false ∧
  Regex.test Regex.time_pattern "Stream mapping:" = false.
Proof. vm_compute. done. Qed.

Lemma slice_last_length {A} (n : nat) (l : list A) :
  length (slice_last n l) = Nat.min (length l) n.
Proof. unfold slice_last. rewrite length_drop. lia. Qed.

Lemma slice_last_short {A} (n : nat) (l : list A) :
  length l ≤ n → slice_last n l = l.
Proof.
  intros Hl. unfold slice_last.
  replace (length l - n) with 0 by lia. reflexivity.
Qed.

Lemma onLog_logLines message s :
  logLines (onLog message s) = slice_last logCap (logLines s ++ [message]).
Proof.
  unfold onLog. destruct (Regex.test _ _); reflexivity.
Qed.

Lemma onLog_progress message s :
  progress (onLog message s) =
    if Regex.test Regex.time_pattern message
    then nudge (progress s) else progress s.
Proof.
  unfold onLog. destruct (Regex.test _ _); reflexivity.
Qed.

Lemma onLog_processing message s :
  processing (onLog message s) = processing s.
Proof. unfold onLog. destruct (Regex.test _ _); reflexivity. Qed.

Lemma onLog_ffmpegReady message s :
  ffmpegReady (onLog message s) = ffmpegReady s.
Proof. unfold onLog. destruct (Regex.test _ _); reflexivity. Qed.

Lemma onLog_length message s : length (logLines (onLog message s)) ≤ logCap.
Proof. rewrite onLog_logLines, slice_last_length. lia. Qed.

Lemma onLog_append message s :
  length (logLines s) < logCap →
  logLines (onLog message s) = logLines s ++ [message].
Proof.
  intros Hl. rewrite onLog_logLines. apply slice_last_short.
  rewrite length_app. cbn. lia.
Qed.

Lemma onLog_evict message s :
  length (logLines s) = logCap →
  logLines (onLog message s) = drop 1 (logLines s) ++ [message].
Proof.
  intros Hl. rewrite onLog_logLines. unfold slice_last.
  rewrite length_app, Hl. cbn [length].
  replace (logCap + 1 - logCap) with 1 by lia.
  rewrite drop_app_le by (rewrite Hl; unfold logCap; lia). reflexivity.
Qed.

(** ** Progress values *)

Lemma halfIntegral_of_Z z : halfIntegral (of_Z z).
Proof.
  exists (2 * z)%Z. unfold Qeq, inject_Z. cbn. lia.
Qed.

Lemma halfIntegral_nudge p : halfIntegral p → halfIntegral (nudge p).
Proof.
  unfold nudge. intros Hp. destruct (lt p (of_Z 95)); [|done].
  destruct p as [| | |q]; try done.
  destruct Hp as [k Hk]. exists (k + 1)%Z. rewrite Qred_correct, Hk.
  unfold Qeq, Qplus. cbn. lia.
Qed.

Lemma lt_Fin a b : lt (Fin a) (Fin b) = true ↔ (a < b)%Q.
Proof.
  cbn. rewrite Qlt_alt. destruct (a ?= b)%Q; split; congruence.
Qed.

Lemma le_Fin a b : le (Fin a) (Fin b) = true ↔ (a <= b)%Q.
Proof.
  cbn. rewrite Qle_alt. destruct (a ?= b)%Q; split; congruence.
Qed.

Lemma lt_Fin_false a b : lt (Fin a) (Fin b) = false ↔ (b <= a)%Q.
Proof.
  rewrite <- not_true_iff_false, lt_Fin. split; [apply Qnot_lt_le|apply Qle_not_lt].
Qed.

Lemma percent_NegInf : percent NegInf = NegInf.
Proof. reflexivity. Qed.

Lemma percent_PosInf : percent PosInf = of_Z 100.
Proof. reflexivity. Qed.

Lemma scaled_Fin q :
  round (mul (Fin q) (of_Z 100)) = of_Z (Qfloor (q * 100 + (1 # 2))).
Proof.
  change (round (mul (Fin q) (of_Z 100))) with
    (of_Z (Qfloor (Qred (q * inject_Z 100) + (1 # 2)))).
  f_equal. apply Qfloor_comp. by rewrite Qred_correct.
Qed.

Lemma min_100_of_Z z : min (of_Z 100) (of_Z z) = of_Z (Z.min 100 z).
Proof.
  unfold min, of_Z. destruct (lt (Fin (inject_Z z)) (Fin (inject_Z 100))) eqn:Hlt.
  - apply lt_Fin in Hlt. rewrite <- Zlt_Qlt in Hlt.
    rewrite Z.min_r by lia. reflexivity.
  - apply lt_Fin_false in Hlt. rewrite <- Zle_Qle in Hlt.
    rewrite Z.min_l by lia. reflexivity.
Qed.

Lemma percent_Fin q :
  percent (Fin q) = of_Z (Z.min 100 (Qfloor (q * 100 + (1 # 2)))).
Proof. unfold percent. by rewrite scaled_Fin, min_100_of_Z. Qed.

Lemma onProgress_NaN s : onProgress NaN s = s.
Proof. reflexivity. Qed.

Lemma onProgress_progress p s :
  progress (onProgress p s) = if isNaN p then progress s else percent p.
Proof. unfold onProgress. destruct (isNaN p); reflexivity. Qed.

Lemma onProgress_logLines p s : logLines (onProgress p s) = logLines s.
Proof. unfold onProgress. destruct (isNaN p); reflexivity. Qed.

Lemma onProgress_processing p s : processing (onProgress p s) = processing s.
Proof. unfold onProgress. destruct (isNaN p); reflexivity. Qed.

Lemma onProgress_ffmpegReady p s :
  ffmpegReady (onProgress p s) = ffmpegReady s.
Proof. unfold onProgress. destruct (isNaN p); reflexivity. Qed.

Lemma halfIntegral_onProgress p s :
  halfIntegral (progress s) → halfIntegral (progress (onProgress p s)).
Proof.
  intros Hs. rewrite onProgress_progress.
  destruct p as [| | |q]; cbn [isNaN]; try done.
  - rewrite percent_PosInf. apply halfIntegral_of_Z.
  - rewrite percent_Fin. apply halfIntegral_of_Z.
Qed.

(** A nudge of a reachable value below 95 stays at or below 95. *)
Lemma nudge_le_95 p :
  halfIntegral p → lt p (of_Z 95) = true → le (nudge p) (of_Z 95) = true.
Proof.
  unfold nudge. intros Hp Hlt. rewrite Hlt.
  destruct p as [| | |q]; try done.
  destruct Hp as [k Hk]. apply lt_Fin in Hlt.
  unfold add, of_Z. apply le_Fin. rewrite Qred_correct.
  rewrite Hk in Hlt |- *. unfold Qlt, Qle, Qplus, inject_Z in *. cbn in *. lia.
Qed.

Lemma nudge_ge_95 p : lt p (of_Z 95) = false → nudge p = p.
Proof. unfold nudge. by intros ->. Qed.

Lemma nudges_stay_at_or_below_95 (n : nat) p :
  halfIntegral p → le p (of_Z 95) = true →
  le (Nat.iter n nudge p) (of_Z 95) = true ∧ halfIntegral (Nat.iter n nudge p).
Proof.
  intros Hhalf Hle. induction n as [|n [IHle IHhalf]]; [done|].
  rewrite !Nat.iter_succ. split; [|by apply halfIntegral_nudge].
  destruct (lt (Nat.iter n nudge p) (of_Z 95)) eqn:Hlt.
  - by apply nudge_le_95.
  - by rewrite nudge_ge_95.
Qed.

Lemma le_lt_false a b : le a b = true → lt b a = false.
Proof.
  destruct a as [| | |x], b as [| | |y]; cbn; try done.
  rewrite <- (Qcompare_antisym x y).
  destruct (x ?= y)%Q; cbn; congruence.
Qed.

(** ** The orchestration *)

Ltac unfold_monad :=
  unfold start_resume, start_issue, cleanup, tryFinally, tryCatch,
    settleExec, readFile, writeFile, deleteFile, issueExec, alert,
    setState, getState, getRef, record_call, with_storage, with_pending,
    mbind, M_bind, mret, M_ret in *;
  cbn in *.

Section OrchestratorFacts.
Context {FS : Type} `{!Storage FS}.
Implicit Types (w : World FS) (e : Event FS) (evs : list (Event FS)).

Lemma run_nil w : run [] w = w.
Proof. reflexivity. Qed.

Lemma run_cons e evs w : run (e :: evs) w = run evs (step e w).
Proof. reflexivity. Qed.

Lemma run_snoc evs e w : run (evs ++ [e]) w = step e (run evs w).
Proof. unfold run. by rewrite foldl_snoc. Qed.

Lemma run_app evs1 evs2 w : run (evs1 ++ evs2) w = run evs2 (run evs1 w).
Proof. unfold run. by rewrite foldl_app. Qed.

(** [start] either returns at once, or resets [processing], the result
    and the progress, writes the input and, unless that write rejects,
    issues [exec]; it never touches the log. *)
Lemma start_issue_cases w :
  let w' := snd (start_issue w) in
  (w' = w ∧ (file (ui w) = None ∨ ffmpegRef w = false)) ∨
  (ui w' = setProgress (of_Z 0)
             (setOutputBlob None (setProcessing true (ui w))) ∧
   ffmpegRef w' = ffmpegRef w ∧ loading w' = loading w ∧
   alerts w' = alerts w ∧
   (pending w' = pending w ∨
    pending w' = pending w ++ [buildArgs (options (ui w))])).
Proof.
  destruct w as [s ref ld fs cs pd al]. unfold_monad.
  destruct (file s) as [f|]; [|left; auto].
  destruct ref; cbn; [|left; auto].
  right. destruct (fs_write inputName (content f) fs); cbn; auto 10.
Qed.

(** The rest of [start] never throws; it clears [processing], keeps the
    log and the pending list, and either stores the result and sets the
    progress to 100 (the run resolved and the output could be read) or
    alerts. *)
Lemma start_resume_cases res w :
  let w' := snd (start_resume res w) in
  fst (start_resume res w) = Ok () ∧
  processing (ui w') = false ∧
  ffmpegReady (ui w') = ffmpegReady (ui w) ∧
  logLines (ui w') = logLines (ui w) ∧
  pending w' = pending w ∧
  ffmpegRef w' = ffmpegRef w ∧ loading w' = loading w ∧
  ((∃ fs' data, res = ExecResolved fs' ∧
                fs_read outputName fs' = Some data ∧
                progress (ui w') = of_Z 100 ∧
                outputBlob (ui w') = Some data ∧
                alerts w' = alerts w) ∨
   (progress (ui w') = progress (ui w) ∧
    outputBlob (ui w') = outputBlob (ui w) ∧
    alerts w' = alerts w ++ ["Encoding failed. See log below for details."] ∧
    match res with
    | ExecResolved fs' => fs_read outputName fs' = None
    | ExecRejected _ => True
    end)).
Proof.
  destruct w as [s ref ld fs cs pd al].
  destruct res as [fs'|fs']; unfold_monad.
  - destruct (fs_read outputName fs') as [data|] eqn:Hread; cbn.
    + destruct (fs_delete inputName fs') as [fs1|]; cbn;
        [destruct (fs_delete outputName fs1); cbn|];
        repeat split; left; eauto 10.
    + destruct (fs_delete inputName fs') as [fs1|]; cbn;
        [destruct (fs_delete outputName fs1); cbn|];
        repeat split; right; auto.
  - destruct (fs_delete inputName fs') as [fs1|]; cbn;
      [destruct (fs_delete outputName fs1); cbn|];
      repeat split; right; auto.
Qed.

Lemma initial_invariant (fs0 : FS) : invariant (initialWorld fs0).
Proof.
  unfold invariant; cbn. repeat split; try done; try lia.
  apply (halfIntegral_of_Z 0).
Qed.

Lemma step_invariant e w : invariant w → invariant (step e w).
Proof.
  intros Hinv.
  pose proof Hinv as (Hhalf & Hlog & Hpend & Hproc & Hload & Hready).
  destruct e; cbn [step].
  - (* Mount *)
    unfold load_issue. destruct (ffmpegRef w) eqn:Href; [done|].
    repeat split; auto.
  - (* LoadSettled *)
    unfold load_resume. destruct (loading w) eqn:Hld; [|done].
    repeat split; cbn; try done; destruct ok; auto.
  - (* PickFile *)
    repeat split; cbn; auto; try lia. apply (halfIntegral_of_Z 0).
  - repeat split; auto.
  - repeat split; auto.
  - repeat split; auto.
  - repeat split; auto.
  - repeat split; auto.
  - (* ClickStart *)
    unfold startDisabled.
    destruct (ffmpegReady (ui w)) eqn:Hrdy; cbn; [|done].
    destruct (bool_decide (is_Some (file (ui w)))); cbn; [|done].
    destruct (processing (ui w)) eqn:Hp; [done|].
    assert (pending w = []) as Hnil.
    { destruct (pending w); [done|]. by discriminate Hproc. }
    destruct (start_issue_cases w) as [[-> _] | (Hui & Href & Hld & _ & Hpd)].
    { repeat split; auto. }
    unfold invariant. rewrite Hui, Href, Hld. cbn.
    repeat split; auto; try apply (halfIntegral_of_Z 0).
    destruct Hpd as [-> | ->]; rewrite Hnil; cbn; lia.
  - (* Log *)
    unfold invariant, on_ui. cbn [ui pending loading ffmpegRef].
    rewrite onLog_progress, onLog_processing, onLog_ffmpegReady.
    repeat split; auto using onLog_length.
    destruct (Regex.test _ _); [|done]. by apply halfIntegral_nudge.
  - (* Progress *)
    unfold invariant, on_ui. cbn [ui pending loading ffmpegRef].
    rewrite onProgress_logLines, onProgress_processing, onProgress_ffmpegReady.
    repeat split; auto using halfIntegral_onProgress.
  - (* ExecSettled *)
    destruct (pending w) as [|args rest] eqn:Hpd; [repeat split; auto; by rewrite Hpd|].
    assert (rest = []) as -> by (destruct rest; [done|cbn in Hpend; lia]).
    destruct (start_resume_cases res (with_pending [] w))
      as (_ & Hp & Hrdy & Hlg & Hpd' & Href & Hld & Hcases).
    unfold invariant. rewrite Hlg, Hpd', Href, Hld, Hrdy. cbn.
    repeat split; auto; try done.
    destruct Hcases as [(fs' & data & _ & _ & -> & _) | (-> & _)]; [|done].
    apply halfIntegral_of_Z.
Qed.

Lemma run_invariant evs w : invariant w → invariant (run evs w).
Proof.
  revert w. induction evs as [|e evs IH]; intros w Hw; [done|].
  rewrite run_cons. by apply IH, step_invariant.
Qed.

Lemma reachable_invariant (fs0 : FS) evs : invariant (run evs (initialWorld fs0)).
Proof. apply run_invariant, initial_invariant. Qed.

End OrchestratorFacts.

(** C6.  Whatever has happened to the component, the log buffer holds at
    most 200 lines; a log event on any buffer leaves at most 200 lines,
    and on a buffer of exactly 200 lines it drops the oldest line, keeps
    the other 199 in their order and puts the new line last. *)
Theorem log_buffer_capped {FS : Type} `{!Storage FS} :
  (∀ (fs0 : FS) (evs : list (Event FS)),
      length (logLines (ui (run evs (initialWorld fs0)))) ≤ 200) ∧
  (∀ (s : State) (message : string),
      length (logLines (onLog message s)) ≤ 200 ∧
      (length (logLines s) = 200 →
       logLines (onLog message s) = drop 1 (logLines s) ++ [message])).
Proof.
  split.
  - intros fs0 evs. apply (reachable_invariant fs0 evs).
  - intros s message. split; [apply onLog_length|apply onLog_evict].
Qed.

Lemma log_buffer_capped_witness :
  let s := setLogLines (replicate 200 "old") initialState in
  logLines (onLog "new" s) = replicate 199 "old" ++ ["new"].
Proof.
  intros s.
  destruct (@log_buffer_capped (gmap string bytes) memfs) as [_ Hlog].
  destruct (Hlog s "new") as [_ Hevict].
  apply Hevict. reflexivity.
Defined.

(** C9.  A progress event whose payload is [NaN] changes nothing: the
    handler returns the state it was given, and so the whole world, its
    progress value included, stays as it was. *)
Theorem nan_progress_ignored {FS : Type} `{!Storage FS} (w : World FS) :
  onProgress NaN (ui w) = ui w ∧
  step (Progress NaN) w = w ∧
  progress (ui (step (Progress NaN) w)) = progress (ui w).
Proof.
  assert (step (Progress NaN) w = w) as Hw by (by destruct w).
  rewrite Hw. done.
Qed.

(** C7.  In every reachable world at most one [exec] is pending, a pending
    [exec] means that [processing] is set, and while [processing] is set a
    click on Start changes nothing: no second [exec] is issued. *)
Theorem single_active_job {FS : Type} `{!Storage FS}
    (fs0 : FS) (evs : list (Event FS)) :
  let w := run evs (initialWorld fs0) in
  length (pending w) ≤ 1 ∧
  (pending w ≠ [] → processing (ui w) = true) ∧
  (processing (ui w) = true →
   step ClickStart w = w ∧ calls (step ClickStart w) = calls w).
Proof.
  intros w.
  destruct (reachable_invariant fs0 evs) as (_ & _ & Hpend & Hproc & _).
  split; [exact Hpend|]. split; [exact Hproc|].
  intros Hp. cbn [step]. unfold startDisabled. rewrite Hp.
  by rewrite !orb_true_r.
Qed.

Lemma single_active_job_witness :
  let w := run [Mount; LoadSettled true; PickFile clip; ClickStart]
               (initialWorld emptyStorage) in
  processing (ui w) = true ∧ length (pending w) = 1 ∧ step ClickStart w = w.
Proof.
  intros w.
  destruct (single_active_job emptyStorage
              [Mount; LoadSettled true; PickFile clip; ClickStart])
    as (_ & Hproc & Hclick).
  assert (processing (ui w) = true) as Hp by (apply Hproc; discriminate).
  split; [exact Hp|]. split; [reflexivity|]. apply (Hclick Hp).
Defined.

(** The guard is the button's: [start] itself, were it called while a run
    is pending, would issue a second [exec]. *)
Example start_has_no_processing_guard :
  let w := run [Mount; LoadSettled true; PickFile clip; ClickStart]
               (initialWorld emptyStorage) in
  length (pending w) = 1 ∧ length (pending (snd (start_issue w))) = 2.
Proof. vm_compute. done. Qed.

(** ** The heuristic of the log handler *)

Section Heuristic.
Context {FS : Type} `{!Storage FS}.
Implicit Types (w : World FS) (messages : list string).

Lemma step_Log_progress message w :
  progress (ui (step (Log message) w)) =
    if Regex.test Regex.time_pattern message
    then nudge (progress (ui w)) else progress (ui w).
Proof. apply onLog_progress. Qed.

Lemma logs_stay_at_or_below_95 messages w :
  halfIntegral (progress (ui w)) →
  le (progress (ui w)) (of_Z 95) = true →
  le (progress (ui (run (Log <$> messages) w))) (of_Z 95) = true.
Proof.
  revert w. induction messages as [|m ms IH]; intros w Hhalf Hle; [done|].
  cbn [fmap list_fmap]. rewrite run_cons. apply IH.
  - rewrite step_Log_progress. destruct (Regex.test _ _); [|done].
    by apply halfIntegral_nudge.
  - rewrite step_Log_progress. destruct (Regex.test _ _); [|done].
    destruct (lt (progress (ui w)) (of_Z 95)) eqn:Hlt.
    + by apply nudge_le_95.
    + by rewrite nudge_ge_95.
Qed.

Lemma logs_keep_95_and_more messages w :
  lt (progress (ui w)) (of_Z 95) = false →
  progress (ui (run (Log <$> messages) w)) = progress (ui w).
Proof.
  revert w. induction messages as [|m ms IH]; intros w Hlt; [done|].
  cbn [fmap list_fmap]. rewrite run_cons.
  assert (progress (ui (step (Log m) w)) = progress (ui w)) as Hsame.
  { rewrite step_Log_progress. destruct (Regex.test _ _); [|done].
    by apply nudge_ge_95. }
  rewrite IH; rewrite Hsame; done.
Qed.

End Heuristic.

(** C5.  From any reachable world whose progress value is below 95, any
    number of nudges, and any sequence of log events (each one nudging or
    not), lead to a value of at most 95; log events leave a progress value
    of 95 or more exactly as it is, the nudge being the identity on every
    value of 95 or more. *)
Theorem heuristic_capped_at_95 {FS : Type} `{!Storage FS}
    (fs0 : FS) (evs : list (Event FS)) (messages : list string) (n : nat) :
  let w := run evs (initialWorld fs0) in
  let w' := run (Log <$> messages) w in
  (lt (progress (ui w)) (of_Z 95) = true →
   le (Nat.iter n nudge (progress (ui w))) (of_Z 95) = true ∧
   le (progress (ui w')) (of_Z 95) = true) ∧
  (le (of_Z 95) (progress (ui w)) = true →
   progress (ui w') = progress (ui w)) ∧
  (∀ p, le (of_Z 95) p = true → nudge p = p).
Proof.
  intros w w'.
  destruct (reachable_invariant fs0 evs) as (Hhalf & _). fold w in Hhalf.
  split; [|split].
  - intros Hlt.
    assert (le (progress (ui w)) (of_Z 95) = true) as Hle.
    { destruct (progress (ui w)) as [| | |q]; try done.
      apply lt_Fin in Hlt. apply le_Fin. by apply Qlt_le_weak. }
    split; [by apply nudges_stay_at_or_below_95|].
    by apply logs_stay_at_or_below_95.
  - intros Hle. apply logs_keep_95_and_more. by apply le_lt_false.
  - intros p Hle. by apply nudge_ge_95, le_lt_false.
Qed.

Lemma heuristic_capped_at_95_witness :
  let w := run [Mount; LoadSettled true; PickFile clip; ClickStart;
                Progress (Fin (47 # 50))]
               (initialWorld emptyStorage) in
  progress (ui w) = of_Z 94 ∧
  le (progress (ui (run (Log <$> replicate 5 "time=00:00:01.00") w)))
     (of_Z 95) = true.
Proof.
  intros w. split; [reflexivity|].
  destruct (heuristic_capped_at_95 emptyStorage
              [Mount; LoadSettled true; PickFile clip; ClickStart;
               Progress (Fin (47 # 50))]
              (replicate 5 "time=00:00:01.00") 5) as [Hbelow _].
  apply Hbelow. reflexivity.
Defined.

Example nudges_stop_at_95 :
  Nat.iter 3 nudge (of_Z 94) = of_Z 95 ∧ nudge (of_Z 95) = of_Z 95 ∧
  nudge (of_Z 100) = of_Z 100.
Proof. vm_compute. done. Qed.

(** ** The range of the progress value *)

Lemma le_of_Z a b : le (of_Z a) (of_Z b) = true ↔ (a ≤ b)%Z.
Proof. unfold of_Z. by rewrite le_Fin, <- Zle_Qle. Qed.

Lemma lt_of_Z a b : lt (of_Z a) (of_Z b) = true ↔ (a < b)%Z.
Proof. unfold of_Z. by rewrite lt_Fin, <- Zlt_Qlt. Qed.

Lemma percent_le_100 p : isNaN p = false → le (percent p) (of_Z 100) = true.
Proof.
  destruct p as [| | |q]; intros Hp; try done.
  rewrite percent_Fin. apply le_of_Z. lia.
Qed.

Lemma percent_ge_0 p :
  le (of_Z 0) p = true → le (of_Z 0) (percent p) = true.
Proof.
  destruct p as [| | |q]; intros Hp; try done.
  rewrite percent_Fin. apply le_of_Z. apply le_Fin in Hp.
  assert (0 ≤ Qfloor (q * 100 + (1 # 2)))%Z; [|lia].
  rewrite <- (Qfloor_Z 0). apply Qfloor_resp_le.
  change (inject_Z 0) with 0%Q in *. lra.
Qed.

(** A payload rounds to 100 percent or more exactly when it is at least
    0.995. *)
Lemma completes_Fin q : completes (Fin q) = true ↔ (199 # 200 <= q)%Q.
Proof.
  unfold completes. rewrite scaled_Fin, le_of_Z.
  pose proof (Qfloor_le (q * 100 + (1 # 2))) as Hle.
  pose proof (Qlt_floor (q * 100 + (1 # 2))) as Hlt.
  split; intros H.
  - rewrite Zle_Qle in H. change (inject_Z 100) with 100%Q in H. lra.
  - apply Z.lt_succ_r, Z.succ_lt_mono. rewrite Zlt_Qlt.
    replace (Z.succ (Z.succ (Qfloor (q * 100 + (1 # 2)))))
      with (Qfloor (q * 100 + (1 # 2)) + 1 + 1)%Z by lia.
    rewrite !inject_Z_plus in *.
    change (inject_Z (Z.succ 100)) with 101%Q.
    change (inject_Z 1) with 1%Q in *. lra.
Qed.

(** Only a payload that rounds to 100 percent or more is turned into 100. *)
Lemma percent_100_completes p :
  isNaN p = false →
  lt (percent p) (of_Z 100) = true ∨ completes p = true.
Proof.
  destruct p as [| | |q]; intros Hp; try done; [by left|by right|].
  unfold completes. rewrite percent_Fin, scaled_Fin.
  destruct (Z_lt_le_dec (Qfloor (q * 100 + (1 # 2))) 100) as [Hlt|Hge].
  - left. apply lt_of_Z. lia.
  - right. by apply le_of_Z.
Qed.

Lemma nudge_le_100 p :
  le p (of_Z 100) = true → le (nudge p) (of_Z 100) = true.
Proof.
  unfold nudge. intros Hle. destruct (lt p (of_Z 95)) eqn:Hlt; [|done].
  destruct p as [| | |q]; try done.
  apply lt_Fin in Hlt. unfold add, of_Z. apply le_Fin.
  rewrite Qred_correct. change (inject_Z 95) with 95%Q in *.
  change (inject_Z 100) with 100%Q. lra.
Qed.

Lemma nudge_ge_0 p : le (of_Z 0) p = true → le (of_Z 0) (nudge p) = true.
Proof.
  unfold nudge. intros Hle. destruct (lt p (of_Z 95)) eqn:Hlt; [|done].
  destruct p as [| | |q]; try done.
  apply le_Fin in Hle. unfold add, of_Z. apply le_Fin.
  rewrite Qred_correct. change (inject_Z 0) with 0%Q in *. lra.
Qed.

Lemma nudge_lt_100 p :
  lt p (of_Z 100) = true → lt (nudge p) (of_Z 100) = true.
Proof.
  unfold nudge. intros Hlt100. destruct (lt p (of_Z 95)) eqn:Hlt; [|done].
  destruct p as [| | |q]; try done.
  apply lt_Fin in Hlt. unfold add, of_Z. apply lt_Fin.
  rewrite Qred_correct. change (inject_Z 95) with 95%Q in *.
  change (inject_Z 100) with 100%Q. lra.
Qed.

Section ProgressRange.
Context {FS : Type} `{!Storage FS}.
Implicit Types (w : World FS) (evs : list (Event FS)).

Lemma payloads_snoc evs (e : Event FS) :
  payloads (evs ++ [e]) =
    payloads evs ++ match e with Progress p => [p] | _ => [] end.
Proof. unfold payloads. rewrite omap_app. by destruct e. Qed.

(** What a run's log and progress events do to a progress value that
    starts at 0. *)
Lemma encoder_events_range evs w :
  forallb encoderEvent evs = true →
  progress (ui w) = of_Z 0 →
  let p' := progress (ui (run evs w)) in
  le p' (of_Z 100) = true ∧
  (forallb harmless (payloads evs) = true → le (of_Z 0) p' = true) ∧
  (lt p' (of_Z 100) = true ∨ existsb completes (payloads evs) = true).
Proof.
  intros Hevs H0. cbv zeta.
  induction evs as [|e evs IH] using rev_ind.
  { rewrite run_nil, H0. repeat split; auto. }
  rewrite forallb_app in Hevs. apply andb_prop in Hevs as [Hevs He].
  destruct (IH Hevs) as (Hle & Hge & Hcompl). clear IH.
  rewrite run_snoc, payloads_snoc.
  set (w1 := run evs w) in *.
  destruct e as [| | | | | | | | |message|p|]; try discriminate.
  - (* Log *)
    rewrite step_Log_progress, app_nil_r.
    destruct (Regex.test _ _); [|done].
    split; [by apply nudge_le_100|].
    split; [intros Hh; by apply nudge_ge_0, Hge|].
    destruct Hcompl as [Hlt|Hex]; [left; by apply nudge_lt_100|by right].
  - (* Progress *)
    change (progress (ui (step (Progress p) w1)))
      with (progress (onProgress p (ui w1))).
    rewrite onProgress_progress, forallb_app, existsb_app.
    destruct (isNaN p) eqn:Hp.
    + split; [done|]. split.
      * intros Hh. apply andb_prop in Hh as [Hh _]. auto.
      * destruct Hcompl as [Hlt|Hex]; [by left|right; by rewrite Hex].
    + split; [by apply percent_le_100|]. split.
      * intros Hh. apply andb_prop in Hh as [_ Hh]. cbn [forallb] in Hh.
        unfold harmless in Hh. rewrite Hp, andb_true_r in Hh. cbn [orb] in Hh.
        by apply percent_ge_0.
      * destruct (percent_100_completes p Hp) as [Hlt|Hc]; [by left|].
        right. cbn [existsb]. rewrite Hc. cbn [orb]. apply orb_true_r.
Qed.

(** A resolved run whose output can be read ends with the result stored
    and the progress at 100. *)
Lemma completion_sets_100 w (fs' : FS) (data : bytes) :
  pending w ≠ [] →
  fs_read outputName fs' = Some data →
  let w' := step (ExecSettled (ExecResolved fs')) w in
  progress (ui w') = of_Z 100 ∧ outputBlob (ui w') = Some data ∧
  processing (ui w') = false.
Proof.
  intros Hpd Hread. cbn [step].
  destruct (pending w) as [|args rest]; [done|].
  destruct (start_resume_cases (ExecResolved fs') (with_pending rest w))
    as (_ & Hproc & _ & _ & _ & _ & _ & Hcases).
  cbv zeta. split; [|split; [|exact Hproc]].
  - destruct Hcases as [(? & ? & ? & ? & ? & ?)|(_ & _ & _ & Hnone)];
      [done|congruence].
  - destruct Hcases as [(? & ? & ? & ? & ? & ? & ?)|(_ & _ & _ & Hnone)];
      [congruence|congruence].
Qed.

End ProgressRange.

(** C4, as stated, fails twice on a run that has just been started: a
    progress event with payload -0.5 makes the reported value -50, outside
    of [0,100]; and a progress event with payload 1 makes it 100 while the
    run is still pending, where it stays when the run then fails. *)
Lemma progress_range_counterexample :
  let w0 := run [Mount; LoadSettled true; PickFile clip; ClickStart]
                (initialWorld emptyStorage) in
  (processing (ui w0) = true ∧ pending w0 ≠ [] ∧ progress (ui w0) = of_Z 0) ∧
  (let w := run [Progress (Fin (-1 # 2))] w0 in
   progress (ui w) = of_Z (-50) ∧ inRange (progress (ui w)) = false) ∧
  (let w := run [Progress (of_Z 1)] w0 in
   progress (ui w) = of_Z 100 ∧ processing (ui w) = true ∧
   pending w ≠ [] ∧ outputBlob (ui w) = None) ∧
  (let w := run [Progress (of_Z 1); ExecSettled (ExecRejected emptyStorage)] w0 in
   progress (ui w) = of_Z 100 ∧ processing (ui w) = false ∧
   outputBlob (ui w) = None ∧
   alerts w = ["Encoding failed. See log below for details."]).
Proof. vm_compute. repeat split; discriminate. Qed.

(** C4, amended.  After a click on the enabled Start button of a reachable
    world, whatever log and progress events follow: the reported value is
    at most 100; it is at least 0 as long as every progress payload is
    [NaN] or at least 0; it reaches 100 only if some progress payload
    rounded to 100 percent or more, that is, was at least 0.995 (the log
    heuristic alone never reports 100); and a run that resolves with a
    readable output sets it to 100. *)
Theorem progress_range_amended {FS : Type} `{!Storage FS}
    (fs0 : FS) (evs0 evs : list (Event FS)) :
  let w := run evs0 (initialWorld fs0) in
  startDisabled (ui w) = false →
  forallb encoderEvent evs = true →
  let w' := run evs (step ClickStart w) in
  le (progress (ui w')) (of_Z 100) = true ∧
  (forallb harmless (payloads evs) = true →
   le (of_Z 0) (progress (ui w')) = true) ∧
  (le (of_Z 100) (progress (ui w')) = true →
   existsb completes (payloads evs) = true) ∧
  (∀ (fs' : FS) (data : bytes),
      pending w' ≠ [] →
      fs_read outputName fs' = Some data →
      progress (ui (step (ExecSettled (ExecResolved fs')) w')) = of_Z 100).
Proof.
  intros w Henabled Hevs w'.
  assert (progress (ui (step ClickStart w)) = of_Z 0) as H0.
  { destruct (reachable_invariant fs0 evs0) as (_ & _ & _ & _ & _ & Hready).
    fold w in Hready. cbn [step]. rewrite Henabled.
    unfold startDisabled in Henabled.
    apply orb_false_elim in Henabled as [Henabled _].
    apply orb_false_elim in Henabled as [Hrdy Hfile].
    apply negb_false_iff in Hrdy, Hfile.
    apply bool_decide_eq_true_1 in Hfile as [f Hf].
    destruct (start_issue_cases w) as [(_ & [Hnone|Href]) | (-> & _)];
      [congruence|rewrite Hready in Href; done|reflexivity]. }
  destruct (encoder_events_range evs _ Hevs H0) as (Hle & Hge & Hcompl).
  fold w' in Hle, Hge, Hcompl.
  split; [exact Hle|]. split; [exact Hge|]. split.
  - intros H100. destruct Hcompl as [Hlt|Hex]; [|exact Hex].
    apply le_lt_false in H100. congruence.
  - intros fs' data Hpd Hread.
    apply (completion_sets_100 w' fs' data Hpd Hread).
Qed.

Lemma progress_range_amended_witness :
  let evs0 := [Mount; LoadSettled true; PickFile clip] in
  let evs := [Log "frame=   24 fps=0.0 time=00:00:01.00 bitrate=N/A";
              Progress (Fin (1 # 2)); Log "time=00:00:02.00"] in
  let w' := run evs (step ClickStart (run evs0 (initialWorld emptyStorage))) in
  le (progress (ui w')) (of_Z 100) = true ∧
  le (of_Z 0) (progress (ui w')) = true.
Proof.
  intros evs0 evs w'.
  destruct (progress_range_amended emptyStorage evs0 evs eq_refl eq_refl)
    as (Hle & Hge & _).
  split; [exact Hle|]. apply Hge. reflexivity.
Defined.

(** ** Resets at the start of a run *)

(** Picking a file resets the result, the log and the progress. *)
Lemma onDrop_resets picked s :
  let s' := onDrop picked s in
  file s' = Some picked ∧ outputBlob s' = None ∧ logLines s' = [] ∧
  progress s' = of_Z 0.
Proof. done. Qed.

(** A click on Start never changes the log. *)
Lemma start_keeps_logLines {FS : Type} `{!Storage FS} (w : World FS) :
  logLines (ui (step ClickStart w)) = logLines (ui w).
Proof.
  cbn [step]. destruct (startDisabled (ui w)); [done|].
  destruct (start_issue_cases w) as [[-> _] | (-> & _)]; done.
Qed.

(** A run started right after a file was picked does start from an empty
    log, no result and the progress at 0. *)
Lemma pick_then_start_resets {FS : Type} `{!Storage FS}
    (w : World FS) (picked : File) :
  let w' := step ClickStart (step (PickFile picked) w) in
  logLines (ui w') = [] ∧ outputBlob (ui w') = None ∧
  progress (ui w') = of_Z 0.
Proof.
  cbv zeta. set (w1 := step (PickFile picked) w).
  assert (logLines (ui w1) = [] ∧ outputBlob (ui w1) = None ∧
          progress (ui w1) = of_Z 0) as (Hl & Ho & Hp) by done.
  cbn [step]. destruct (startDisabled (ui w1)); [done|].
  destruct (start_issue_cases w1) as [[-> _] | (-> & _)]; done.
Qed.

(** C8.  The code at the failing input: a run of [clip] logs one line and
    succeeds; the Start button is clicked again for the same file.  The
    second run is then under way with the progress back at 0 and the
    previous result gone, but with the line of the first run still in the
    log buffer. *)
Theorem rerun_keeps_log :
  let w := run [Mount; LoadSettled true; PickFile clip; ClickStart;
                Log "frame=   24 fps=0.0 time=00:00:01.00 bitrate=N/A";
                ExecSettled (ExecResolved encodedStorage)]
               (initialWorld emptyStorage) in
  (processing (ui w) = false ∧ progress (ui w) = of_Z 100 ∧
   outputBlob (ui w) = Some [Byte.x07]) ∧
  let w' := step ClickStart w in
  processing (ui w') = true ∧ length (pending w') = 1 ∧
  progress (ui w') = of_Z 0 ∧ outputBlob (ui w') = None ∧
  logLines (ui w') = ["frame=   24 fps=0.0 time=00:00:01.00 bitrate=N/A"].
Proof. vm_compute. repeat split. Qed.

(** ** Cleanup of the virtual storage *)

Section Cleanup.
Context {FS : Type} `{!Storage FS}.
Implicit Types (w : World FS) (res : ExecResult FS).

Lemma cleanup_spec w :
  cleanup w =
    (Ok (),
     mkWorld (ui w) (ffmpegRef w) (loading w) (cleaned (storage w))
       (calls w ++
        match fs_delete inputName (storage w) with
        | None => [CallDeleteFile inputName]
        | Some _ => [CallDeleteFile inputName; CallDeleteFile outputName]
        end)
       (pending w) (alerts w)).
Proof.
  destruct w as [s ref ld fs cs pd al]. unfold cleaned. unfold_monad.
  destruct (fs_delete inputName fs) as [fs1|]; cbn; [|done].
  rewrite <- app_assoc. cbn.
  destruct (fs_delete outputName fs1); done.
Qed.

(** Both paths of [start] end in the cleanup, with [processing] cleared
    just before it. *)
Lemma start_resume_ends_in_cleanup res w :
  ∃ w1, start_resume res w = cleanup w1 ∧
        processing (ui w1) = false ∧
        storage w1 = storage_after res.
Proof.
  unfold start_resume, tryFinally.
  match goal with
  | |- context [tryCatch ?m ?h w] =>
      destruct (tryCatch m h w) as [r w2] eqn:Hbody
  end.
  assert (r = Ok () ∧ storage w2 = storage_after res) as [-> Hst].
  { destruct w as [s ref ld fs cs pd al].
    destruct res as [fs'|fs']; unfold_monad;
      [destruct (fs_read outputName fs')|]; by inversion Hbody. }
  exists (on_ui (setProcessing false) w2).
  change ((setState (setProcessing false);; cleanup) w2)
    with (cleanup (on_ui (setProcessing false) w2)).
  rewrite cleanup_spec. done.
Qed.

End Cleanup.

(** C10.  The cleanup never throws and shows no alert.  It asks for the
    deletion of the input first; when that deletion rejects, this is the
    only call it makes (the deletion of the output is not asked for) and
    the storage stays as it was; when it settles, the deletion of the
    output is asked for next, and a rejection there is swallowed as well.
    Whether the run resolved or rejected, [start] ends in this cleanup. *)
Theorem cleanup_guarded {FS : Type} `{!Storage FS}
    (res : ExecResult FS) (w : World FS) :
  (let '(r, w') := cleanup w in
   r = Ok () ∧ alerts w' = alerts w ∧ ui w' = ui w ∧
   match fs_delete inputName (storage w) with
   | None =>
       calls w' = calls w ++ [CallDeleteFile inputName] ∧
       storage w' = storage w
   | Some fs1 =>
       calls w' = calls w ++ [CallDeleteFile inputName;
                              CallDeleteFile outputName] ∧
       storage w' = match fs_delete outputName fs1 with
                    | None => fs1
                    | Some fs2 => fs2
                    end
   end) ∧
  (∃ w1, start_resume res w = cleanup w1 ∧ storage w1 = storage_after res) ∧
  fst (start_resume res w) = Ok ().
Proof.
  split; [|split].
  - rewrite cleanup_spec. cbn. unfold cleaned.
    destruct (fs_delete inputName (storage w)); auto.
  - destruct (start_resume_ends_in_cleanup res w) as (w1 & Hw1 & _ & Hst).
    by exists w1.
  - apply start_resume_cases.
Qed.

(** On the in-memory storage: with the input gone, the output is left in
    place and only one deletion is asked for; with both files there, both
    are deleted, input first. *)
Example cleanup_input_missing :
  let fs : gmap string bytes := {[ outputName := [Byte.x07] ]} in
  let '(r, w') := cleanup (initialWorld fs) in
  r = Ok () ∧ calls w' = [CallDeleteFile inputName] ∧
  storage w' !! outputName = Some [Byte.x07] ∧ alerts w' = [].
Proof. vm_compute. done. Qed.

Example cleanup_both_present :
  let '(r, w') := cleanup (initialWorld encodedStorage) in
  r = Ok () ∧
  calls w' = [CallDeleteFile inputName; CallDeleteFile outputName] ∧
  storage w' = ∅ ∧ alerts w' = [].
Proof. vm_compute. done. Qed.

(** * Further properties of the component *)

(** ** The download name *)

Lemma string_length_app (s t : string) :
  String.length (s +:+ t) = String.length s + String.length t.
Proof. induction s as [|c s IH]; simpl; [done|]. by f_equal. Qed.

Lemma substring_all (t : string) : String.substring 0 (String.length t) t = t.
Proof. induction t as [|c t IH]; simpl; [done|]. by f_equal. Qed.

Lemma substring_end (s t : string) :
  String.substring (String.length s) (String.length t) (s +:+ t) = t.
Proof. induction s as [|c s IH]; simpl; [apply substring_all|exact IH]. Qed.

Lemma endsWith_app (s t : string) : endsWith (s +:+ t) t = true.
Proof.
  unfold endsWith. rewrite string_length_app.
  replace (String.length s + String.length t - String.length t)
    with (String.length s) by lia.
  rewrite substring_end, String.eqb_refl, andb_true_r.
  apply Nat.leb_le. lia.
Qed.

Lemma downloadName_endsWith (n : string) :
  endsWith (downloadName n) ".mp4" = true.
Proof.
  unfold downloadName. destruct (endsWith n ".mp4") eqn:Hn; [done|].
  apply endsWith_app.
Qed.

(** X7.  The suggested download name always ends with [.mp4]; it is the
    picked file's name itself exactly when that name already ends with
    [.mp4] (as written, in lower case), and that name followed by [.mp4]
    otherwise; naming twice changes nothing more. *)
Theorem downloadName_ends_with_mp4 (n : string) :
  endsWith (downloadName n) ".mp4" = true ∧
  (endsWith n ".mp4" = true → downloadName n = n) ∧
  (endsWith n ".mp4" = false → downloadName n = n +:+ ".mp4") ∧
  downloadName (downloadName n) = downloadName n.
Proof.
  pose proof (downloadName_endsWith n) as Hends.
  split; [exact Hends|]. split; [|split].
  - intros Hn. unfold downloadName. by rewrite Hn.
  - intros Hn. unfold downloadName. by rewrite Hn.
  - unfold downloadName at 1. by rewrite Hends.
Qed.

Example downloadName_examples :
  downloadName "clip.mp4" = "clip.mp4" ∧
  downloadName "holiday" = "holiday.mp4" ∧
  downloadName "CLIP.MP4" = "CLIP.MP4.mp4".
Proof. done. Qed.

(** ** Sizes for display *)

Lemma humanSize_loop_last (fuel : nat) (b : Q) :
  humanSize_loop (S fuel) b 2 = humanSize_loop 0 b 2.
Proof.
  cbn. rewrite andb_false_r. reflexivity.
Qed.

(** The loop never needs more than the three levels of fuel [humanSize]
    gives it: after at most four bodies [u] has reached the last unit. *)
Lemma humanSize_loop_fuel (fuel : nat) (b : Q) :
  3 ≤ fuel → humanSize_loop fuel b (-1) = humanSize_loop 3 b (-1).
Proof.
  intros Hfuel.
  destruct fuel as [|[|[|fuel]]]; [lia|lia|lia|].
  cbn [humanSize_loop].
  repeat match goal with
         | |- context [if ?c then _ else _] => destruct c; [|reflexivity]
         end.
  change (-1 + 1 + 1 + 1)%Z with 2%Z.
  destruct fuel; [reflexivity|]. by rewrite humanSize_loop_last.
Qed.

Lemma humanSize_loop_spec (fuel : nat) (b : Q) (u : Z) :
  (inject_Z thresh <= b)%Q →
  (u + 1 + Z.of_nat fuel = 3)%Z →
  let '(b', u') := humanSize_loop fuel b u in
  (u + 1 ≤ u' ≤ 3)%Z ∧
  (b' * inject_Z (thresh ^ (u' - u)) == b)%Q ∧
  (1 <= b')%Q ∧
  ((u' < 3)%Z → (b' < inject_Z thresh)%Q).
Proof.
  revert b u. induction fuel as [|fuel IH]; intros b u Hb Hu.
  - cbn [humanSize_loop]. replace (u + 1 - u)%Z with 1%Z by lia.
    change (inject_Z thresh) with 1024%Q in *.
    change (inject_Z (thresh ^ 1)) with 1024%Q.
    repeat split; try lia.
    + field.
    + apply Qle_shift_div_l; lra.
  - cbn [humanSize_loop].
    set (b1 := (b / inject_Z thresh)%Q). set (u1 := (u + 1)%Z).
    assert (b1 * inject_Z thresh == b)%Q as Hb1.
    { subst b1. change (inject_Z thresh) with 1024%Q. field. }
    assert (1 <= b1)%Q as Hb1_1.
    { subst b1. change (inject_Z thresh) with 1024%Q in *.
      apply Qle_shift_div_l; lra. }
    assert (Qabs b1 == b1)%Q as Habs by (apply Qabs_pos; lra).
    assert ((u1 <? Z.of_nat (length units) - 1)%Z = true) as ->
      by (apply Z.ltb_lt; cbn; lia).
    rewrite andb_true_r.
    destruct (Qle_bool (inject_Z thresh) (Qabs b1)) eqn:Hcond.
    + apply Qle_bool_iff in Hcond. rewrite Habs in Hcond.
      specialize (IH b1 u1 Hcond ltac:(lia)).
      destruct (humanSize_loop fuel b1 u1) as [b' u'].
      destruct IH as (Hu' & Hmul & Hone & Hlt).
      repeat split; try lia; try assumption.
      replace (u' - u)%Z with (Z.succ (u' - u1)) by lia.
      rewrite Z.pow_succ_r by lia. rewrite inject_Z_mult.
      rewrite <- Hb1, <- Hmul. ring.
    + assert (b1 < inject_Z thresh)%Q as Hlt.
      { apply Qnot_le_lt. intros Hle.
        assert (Qle_bool (inject_Z thresh) (Qabs b1) = true) as Htrue
          by (apply Qle_bool_iff; by rewrite Habs).
        congruence. }
      replace (u1 - u)%Z with 1%Z by lia.
      change (inject_Z (thresh ^ 1)) with (inject_Z thresh).
      subst u1. repeat split; try lia; try assumption. intros _. exact Hlt.
Qed.

(** X11.  For a size of at least 1024 bytes (an integer below 2^53),
    [humanSize] shows the size divided by 1024 once per unit step, to one
    decimal, followed by the unit: the unit is KB, MB, GB or TB, the value
    shown is at least 1, and it is below 1024 unless the unit is TB, the
    last one, where it may be anything from 1 upwards. *)
Theorem humanSize_unit (n : Z) :
  (thresh ≤ n < 2 ^ 53)%Z →
  ∃ (b : Q) (u : nat) (unit : string),
    units !! u = Some unit ∧
    (b * inject_Z (thresh ^ Z.of_nat (S u)) == inject_Z n)%Q ∧
    (1 <= b)%Q ∧
    (u < 3 → (b < 1024)%Q) ∧
    humanSize (Some n) = toFixed1 b +:+ " " +:+ unit.
Proof.
  intros [Hn _].
  pose proof (humanSize_loop_spec 3 (inject_Z n) (-1)) as Hloop.
  unfold humanSize. rewrite Z.abs_eq by (unfold thresh in Hn; lia).
  assert ((n <? thresh)%Z = false) as -> by (apply Z.ltb_ge; lia).
  destruct (humanSize_loop 3 (inject_Z n) (-1)) as [b u].
  destruct Hloop as (Hu & Hmul & Hone & Hlt).
  { rewrite <- Zle_Qle. exact Hn. }
  { reflexivity. }
  assert (Z.to_nat u < length units) as Hlen by (cbn; lia).
  apply lookup_lt_is_Some_2 in Hlen as [unit Hunit].
  exists b, (Z.to_nat u), unit.
  split; [exact Hunit|]. split; [|split; [exact Hone|split]].
  - replace (Z.of_nat (S (Z.to_nat u))) with (u - -1)%Z by lia. exact Hmul.
  - intros Hu3. apply Hlt. lia.
  - by rewrite Hunit.
Qed.

Lemma humanSize_unit_witness :
  ∃ (b : Q) (u : nat) (unit : string),
    units !! u = Some unit ∧
    (b * inject_Z (thresh ^ Z.of_nat (S u)) == inject_Z 52428800)%Q ∧
    (1 <= b)%Q ∧
    (u < 3 → (b < 1024)%Q) ∧
    humanSize (Some 52428800%Z) = toFixed1 b +:+ " " +:+ unit.
Proof. apply (humanSize_unit 52428800). unfold thresh. lia. Defined.

(** Sizes below 1024 bytes are shown in bytes, no size as nothing; the
    rounding to one decimal can show 1024.0 of a unit. *)
Example humanSize_examples :
  humanSize None = "" ∧
  humanSize (Some 0%Z) = "0 B" ∧
  humanSize (Some 1023%Z) = "1023 B" ∧
  humanSize (Some 1536%Z) = "1.5 KB" ∧
  humanSize (Some 52428800%Z) = "50.0 MB" ∧
  humanSize (Some 1048575%Z) = "1024.0 KB" ∧
  humanSize (Some (1024 ^ 5)%Z) = "1024.0 TB".
Proof. vm_compute. done. Qed.

(** ** Runs, results and the calls made to the encoder *)

Lemma execsFollowWrites_nil : execsFollowWrites [].
Proof. intros i args Hi. by rewrite lookup_nil in Hi. Qed.

Lemma execsFollowWrites_app_quiet (l new : list Call) :
  execsFollowWrites l →
  (∀ args, CallExec args ∉ new) →
  execsFollowWrites (l ++ new).
Proof.
  intros Hl Hnew i args Hi.
  apply lookup_app_Some in Hi as [Hi|[Hlen Hi]].
  - destruct (Hl i args Hi) as (j & d & -> & Hj).
    exists j, d. split; [done|]. by apply lookup_app_l_Some.
  - exfalso. apply (Hnew args). by apply list_elem_of_lookup_2 in Hi.
Qed.

Lemma execsFollowWrites_app_job (l : list Call) (d : bytes) (args : list string) :
  execsFollowWrites l →
  execsFollowWrites (l ++ [CallWriteFile inputName d; CallExec args]).
Proof.
  intros Hl i args' Hi.
  apply lookup_app_Some in Hi as [Hi|[Hlen Hi]].
  - destruct (Hl i args' Hi) as (j & d' & -> & Hj).
    exists j, d'. split; [done|]. by apply lookup_app_l_Some.
  - destruct (i - length l) as [|[|k]] eqn:Hk; [done| |done].
    exists (length l), d. split; [lia|].
    rewrite lookup_app_r by lia. by rewrite Nat.sub_diag.
Qed.

Section Runs.
Context {FS : Type} `{!Storage FS}.
Implicit Types (w : World FS) (e : Event FS) (evs : list (Event FS)).

(** [start] up to the await of [exec], in full. *)
Lemma start_issue_effect w :
  let w' := snd (start_issue w) in
  (w' = w ∧ (file (ui w) = None ∨ ffmpegRef w = false)) ∨
  ∃ f, file (ui w) = Some f ∧ ffmpegRef w = true ∧
       ui w' = setProgress (of_Z 0)
                 (setOutputBlob None (setProcessing true (ui w))) ∧
       alerts w' = alerts w ∧
       ((fs_write inputName (content f) (storage w) = None ∧
         calls w' = calls w ++ [CallWriteFile inputName (content f)] ∧
         pending w' = pending w ∧ storage w' = storage w) ∨
        (∃ fs1, fs_write inputName (content f) (storage w) = Some fs1 ∧
                calls w' = calls w ++
                             [CallWriteFile inputName (content f);
                              CallExec (buildArgs (options (ui w)))] ∧
                pending w' = pending w ++ [buildArgs (options (ui w))] ∧
                storage w' = fs1)).
Proof.
  destruct w as [s ref ld fs cs pd al]. unfold_monad.
  destruct (file s) as [f|]; [|left; auto].
  destruct ref; cbn; [|left; auto].
  right. exists f.
  destruct (fs_write inputName (content f) fs) as [fs1|]; cbn.
  - repeat split; try done. right. exists fs1.
    rewrite <- app_assoc. by cbn.
  - repeat split; try done. by left.
Qed.

(** The rest of [start], in full: the state it leaves, the calls it makes
    (none of them an [exec]) and the alert it shows. *)
Lemma start_resume_effect res w :
  let w' := snd (start_resume res w) in
  ui w' = settled res (ui w) ∧
  pending w' = pending w ∧
  storage w' = cleaned (storage_after res) ∧
  (∃ new, calls w' = calls w ++ new ∧ ∀ args, CallExec args ∉ new) ∧
  ((failed res ∧
    alerts w' = alerts w ++ ["Encoding failed. See log below for details."]) ∨
   ((∃ fs' data, res = ExecResolved fs' ∧ fs_read outputName fs' = Some data) ∧
    alerts w' = alerts w)).
Proof.
  destruct w as [s ref ld fs cs pd al]. unfold cleaned, settled, failed.
  destruct res as [fs'|fs']; unfold_monad.
  - destruct (fs_read outputName fs') as [data|] eqn:Hread; cbn.
    + destruct (fs_delete inputName fs') as [fs1|]; cbn;
        [destruct (fs_delete outputName fs1); cbn|];
        rewrite <- ?app_assoc; cbn;
        (repeat split; [eexists; split; [reflexivity|]; intros args Hin;
                        repeat (apply elem_of_cons in Hin as [Hin|Hin];
                                [discriminate|]);
                        by apply elem_of_nil in Hin
                       |right; eauto]).
    + destruct (fs_delete inputName fs') as [fs1|]; cbn;
        [destruct (fs_delete outputName fs1); cbn|];
        rewrite <- ?app_assoc; cbn;
        (repeat split; [eexists; split; [reflexivity|]; intros args Hin;
                        repeat (apply elem_of_cons in Hin as [Hin|Hin];
                                [discriminate|]);
                        by apply elem_of_nil in Hin
                       |left; eauto]).
  - destruct (fs_delete inputName fs') as [fs1|]; cbn;
      [destruct (fs_delete outputName fs1); cbn|];
      rewrite <- ?app_assoc; cbn;
      (repeat split; [eexists; split; [reflexivity|]; intros args Hin;
                      repeat (apply elem_of_cons in Hin as [Hin|Hin];
                              [discriminate|]);
                      by apply elem_of_nil in Hin
                     |left; eauto]).
Qed.

End Runs.

Lemma onLog_file message s : file (onLog message s) = file s.
Proof. unfold onLog. destruct (Regex.test _ _); reflexivity. Qed.

Lemma onLog_outputBlob message s : outputBlob (onLog message s) = outputBlob s.
Proof. unfold onLog. destruct (Regex.test _ _); reflexivity. Qed.

Lemma onProgress_file p s : file (onProgress p s) = file s.
Proof. unfold onProgress. destruct (isNaN p); reflexivity. Qed.

Lemma onProgress_outputBlob p s : outputBlob (onProgress p s) = outputBlob s.
Proof. unfold onProgress. destruct (isNaN p); reflexivity. Qed.

Section Results.
Context {FS : Type} `{!Storage FS}.
Implicit Types (w : World FS) (e : Event FS) (evs : list (Event FS))
  (res : ExecResult FS).

Lemma settled_fields res s :
  file (settled res s) = file s ∧
  ffmpegReady (settled res s) = ffmpegReady s ∧
  logLines (settled res s) = logLines s ∧
  options (settled res s) = options s ∧
  processing (settled res s) = false.
Proof.
  unfold settled. destruct res as [fs'|fs']; [|done].
  by destruct (fs_read outputName fs').
Qed.

Lemma settled_failed res s :
  failed res →
  outputBlob (settled res s) = outputBlob s ∧
  progress (settled res s) = progress s.
Proof.
  unfold settled, failed. destruct res as [fs'|fs']; [|done].
  by intros ->.
Qed.

Lemma settled_resolved (fs' : FS) (data : bytes) s :
  fs_read outputName fs' = Some data →
  outputBlob (settled (ExecResolved fs') s) = Some data ∧
  progress (settled (ExecResolved fs') s) = of_Z 100.
Proof. unfold settled. by intros ->. Qed.

Lemma resultInvariant_initial (fs0 : FS) : resultInvariant (initialWorld fs0).
Proof.
  unfold resultInvariant; cbn.
  repeat split; try done. all: apply execsFollowWrites_nil.
Qed.

Lemma step_resultInvariant e w :
  invariant w → resultInvariant w → resultInvariant (step e w).
Proof.
  intros (_ & _ & Hlen & Hproc & _ & _) Hres.
  pose proof Hres as (Hpend & Hout & Hcalls & Hexecs).
  destruct e; cbn [step]; try exact Hres.
  - (* Mount *)
    unfold load_issue. by destruct (ffmpegRef w).
  - (* LoadSettled *)
    unfold load_resume. destruct (loading w); [|done].
    unfold resultInvariant; cbn [ui pending calls].
    destruct ok; [|done]. cbn.
    split; [intros Hne; by destruct (Hpend Hne) as (? & ? & ?)|].
    split; [done|].
    split; [intros Hne; by destruct (Hcalls Hne) as (? & ?)|done].
  - (* PickFile *)
    unfold resultInvariant; cbn.
    split; [intros Hne; by destruct (Hpend Hne) as (? & ? & ?)|].
    split; [done|].
    split; [intros Hne; by destruct (Hcalls Hne) as (? & ?)|done].
  - (* ClickStart *)
    destruct (startDisabled (ui w)) eqn:Hdis; [done|].
    unfold startDisabled in Hdis.
    apply orb_false_elim in Hdis as [Hdis Hp].
    apply orb_false_elim in Hdis as [Hrdy _].
    apply negb_false_iff in Hrdy.
    assert (pending w = []) as Hnil.
    { destruct (pending w); [done|]. rewrite Hproc in Hp; done. }
    destruct (start_issue_effect w)
      as [[-> _] | (f & Hf & _ & Hui & _ & Hcases)]; [done|].
    unfold resultInvariant. rewrite Hui. cbn.
    rewrite Hf, Hrdy.
    destruct Hcases as [(_ & -> & -> & _) | (fs1 & _ & -> & -> & _)].
    + repeat split; try done.
      apply execsFollowWrites_app_quiet; [done|].
      intros args Hin. apply list_elem_of_singleton in Hin. discriminate.
    + repeat split; try done. by apply execsFollowWrites_app_job.
  - (* Log *)
    unfold resultInvariant, on_ui. cbn [ui pending calls].
    by rewrite onLog_outputBlob, onLog_file, onLog_ffmpegReady.
  - (* Progress *)
    unfold resultInvariant, on_ui. cbn [ui pending calls].
    by rewrite onProgress_outputBlob, onProgress_file, onProgress_ffmpegReady.
  - (* ExecSettled *)
    destruct (pending w) as [|args rest] eqn:Hpd; [done|].
    assert (rest = []) as -> by (destruct rest; [done|cbn in Hlen; lia]).
    destruct Hpend as (_ & Hfile & Hrdy); [done|].
    destruct (start_resume_effect res (with_pending [] w))
      as (Hui & Hpd' & _ & (new & Hnew & Hquiet) & _).
    destruct (settled_fields res (ui w)) as (Hf & Hr & _).
    unfold resultInvariant. rewrite Hui, Hpd', Hnew. cbn [ui calls with_pending].
    rewrite Hf, Hr.
    repeat split; try done. by apply execsFollowWrites_app_quiet.
Qed.

Lemma reachable_resultInvariant (fs0 : FS) evs :
  resultInvariant (run evs (initialWorld fs0)).
Proof.
  induction evs as [|e evs IH] using rev_ind;
    [apply resultInvariant_initial|].
  rewrite run_snoc. apply step_resultInvariant; [|exact IH].
  apply reachable_invariant.
Qed.

End Results.

Section Extras.
Context {FS : Type} `{!Storage FS}.
Implicit Types (w : World FS) (e : Event FS) (evs : list (Event FS))
  (res : ExecResult FS).

(** Once the load has failed nothing sets [ffmpegReady] any more. *)
Lemma load_failed_forever evs w :
  ffmpegRef w = true → loading w = false →
  ffmpegReady (ui w) = false → pending w = [] →
  let w' := run evs w in
  ffmpegReady (ui w') = false ∧ pending w' = [] ∧ calls w' = calls w.
Proof.
  revert w. induction evs as [|e evs IH]; intros w Href Hld Hrdy Hpd; [done|].
  rewrite run_cons.
  assert (ffmpegRef (step e w) = true ∧ loading (step e w) = false ∧
          ffmpegReady (ui (step e w)) = false ∧ pending (step e w) = [] ∧
          calls (step e w) = calls w) as (? & ? & ? & ? & Hcs).
  { destruct e; cbn [step]; try done.
    - unfold load_issue. by rewrite Href.
    - unfold load_resume. by rewrite Hld.
    - unfold startDisabled. by rewrite Hrdy.
    - unfold on_ui. cbn [ui ffmpegRef loading pending calls].
      by rewrite onLog_ffmpegReady.
    - unfold on_ui. cbn [ui ffmpegRef loading pending calls].
      by rewrite onProgress_ffmpegReady.
    - by rewrite Hpd. }
  cbv zeta. rewrite <- Hcs. by apply IH.
Qed.

(** Once [start] has stopped at a rejected [writeFile], [processing]
    stays set. *)
Lemma stuck_forever evs w :
  processing (ui w) = true → pending w = [] →
  let w' := run evs w in
  processing (ui w') = true ∧ pending w' = [] ∧ calls w' = calls w.
Proof.
  revert w. induction evs as [|e evs IH]; intros w Hp Hpd; [done|].
  rewrite run_cons.
  assert (processing (ui (step e w)) = true ∧ pending (step e w) = [] ∧
          calls (step e w) = calls w) as (? & ? & Hcs).
  { destruct e; cbn [step]; try done.
    - unfold load_issue. by destruct (ffmpegRef w).
    - unfold load_resume. destruct (loading w); [|done]. by destruct ok.
    - unfold startDisabled. rewrite Hp. by rewrite !orb_true_r.
    - unfold on_ui. cbn [ui ffmpegRef loading pending calls].
      by rewrite onLog_processing.
    - unfold on_ui. cbn [ui ffmpegRef loading pending calls].
      by rewrite onProgress_processing.
    - by rewrite Hpd. }
  cbv zeta. rewrite <- Hcs. by apply IH.
Qed.

Lemma slice_last_app_l {A} (n : nat) (l l' : list A) :
  slice_last n (slice_last n l ++ l') = slice_last n (l ++ l').
Proof.
  destruct (decide (length l ≤ n)) as [Hle|Hgt].
  { by rewrite (slice_last_short n l). }
  unfold slice_last at 1 3.
  rewrite !length_app, slice_last_length, Nat.min_r by lia.
  unfold slice_last. rewrite <- (drop_app_le l l') by lia.
  rewrite drop_drop. f_equal. lia.
Qed.

Lemma logs_buffer w (messages : list string) :
  length (logLines (ui w)) ≤ logCap →
  logLines (ui (run (Log <$> messages) w)) =
    slice_last logCap (logLines (ui w) ++ messages).
Proof.
  revert w. induction messages as [|m ms IH]; intros w Hlen.
  - rewrite app_nil_r. by rewrite slice_last_short.
  - cbn [fmap list_fmap]. rewrite run_cons.
    rewrite IH by apply onLog_length.
    change (logLines (ui (step (Log m) w)))
      with (logLines (onLog m (ui w))).
    rewrite onLog_logLines, slice_last_app_l.
    by rewrite <- app_assoc.
Qed.

(** Only a pick changes the file, and it never clears it. *)
Lemma step_file e w :
  file (ui (step e w)) = file (ui w) ∨
  ∃ picked, e = PickFile picked ∧ file (ui (step e w)) = Some picked.
Proof.
  destruct e; cbn [step]; try (by left).
  - left. unfold load_issue. by destruct (ffmpegRef w).
  - left. unfold load_resume. destruct (loading w); [|done]. by destruct ok.
  - right. by eexists.
  - left. destruct (startDisabled (ui w)); [done|].
    destruct (start_issue_effect w) as [[-> _] | (f & _ & _ & -> & _)]; done.
  - left. apply onLog_file.
  - left. apply onProgress_file.
  - left. destruct (pending w) as [|args rest]; [done|].
    destruct (start_resume_effect res (with_pending rest w)) as (-> & _).
    apply settled_fields.
Qed.

Lemma runView_snoc evs e (v : World FS * Sizes) :
  runView (evs ++ [e]) v = stepView e (runView evs v).
Proof. unfold runView. by rewrite foldl_snoc. Qed.

Lemma runView_fst evs (v : World FS * Sizes) :
  fst (runView evs v) = run evs (fst v).
Proof.
  induction evs as [|e evs IH] using rev_ind; [done|].
  rewrite runView_snoc, run_snoc. cbn. by rewrite IH.
Qed.

End Extras.

(** X1.  When the encoder's load fails, it fails for good: whatever
    happens afterwards, [ffmpegReady] stays unset, the Start button stays
    disabled, and the encoder is never called. *)
Theorem load_failure_is_permanent {FS : Type} `{!Storage FS}
    (fs0 : FS) (evs : list (Event FS)) :
  let w := run (Mount :: LoadSettled false :: evs) (initialWorld fs0) in
  ffmpegReady (ui w) = false ∧ startDisabled (ui w) = true ∧
  calls w = [] ∧ pending w = [].
Proof.
  intros w.
  destruct (load_failed_forever evs
              (step (LoadSettled false) (step Mount (initialWorld fs0))))
    as (Hrdy & Hpd & Hcs); try done.
  change (ffmpegReady (ui w) = false) in Hrdy.
  change (pending w = []) in Hpd.
  change (calls w = []) in Hcs.
  split; [exact Hrdy|]. split; [|by split].
  unfold startDisabled. by rewrite Hrdy.
Qed.

(** X2.  The encoder is only ever called once it is ready and a file has
    been picked: in every reachable world that has made a call,
    [ffmpegReady] is set and there is a file. *)
Theorem calls_need_ready_and_file {FS : Type} `{!Storage FS}
    (fs0 : FS) (evs : list (Event FS)) :
  let w := run evs (initialWorld fs0) in
  calls w ≠ [] → ffmpegReady (ui w) = true ∧ file (ui w) ≠ None.
Proof.
  intros w Hcalls.
  destruct (reachable_resultInvariant fs0 evs) as (_ & _ & Hc & _).
  by apply Hc.
Qed.

Lemma calls_need_ready_and_file_witness :
  let w := run [Mount; LoadSettled true; PickFile clip; ClickStart]
               (initialWorld emptyStorage) in
  ffmpegReady (ui w) = true ∧ file (ui w) ≠ None.
Proof.
  apply (calls_need_ready_and_file emptyStorage
           [Mount; LoadSettled true; PickFile clip; ClickStart]).
  discriminate.
Defined.

(** X3.  In every reachable world, each [exec] among the calls made to
    the encoder comes immediately after a [writeFile] of [input.mp4]: no
    run is started without its input having been written just before. *)
Theorem exec_follows_input_write {FS : Type} `{!Storage FS}
    (fs0 : FS) (evs : list (Event FS)) (i : nat) (args : list string) :
  let w := run evs (initialWorld fs0) in
  calls w !! i = Some (CallExec args) →
  ∃ (j : nat) (d : bytes),
    i = S j ∧ calls w !! j = Some (CallWriteFile inputName d).
Proof.
  intros w Hi.
  destruct (reachable_resultInvariant fs0 evs) as (_ & _ & _ & Hexecs).
  exact (Hexecs i args Hi).
Qed.

Lemma exec_follows_input_write_witness :
  let w := run [Mount; LoadSettled true; PickFile clip; ClickStart]
               (initialWorld emptyStorage) in
  ∃ (j : nat) (d : bytes),
    1 = S j ∧ calls w !! j = Some (CallWriteFile inputName d).
Proof.
  apply (exec_follows_input_write emptyStorage
           [Mount; LoadSettled true; PickFile clip; ClickStart]
           1 (buildArgs defaultOptions)).
  reflexivity.
Defined.

(** X4.  A run that fails (the [exec] rejects, or resolves without a
    readable output) leaves no result and nothing to download, shows the
    failure alert once, keeps the progress value and the log, and leaves
    the Start button enabled for a retry. *)
Theorem failed_run_outcome {FS : Type} `{!Storage FS}
    (fs0 : FS) (evs : list (Event FS)) (res : ExecResult FS) :
  let w := run evs (initialWorld fs0) in
  pending w ≠ [] →
  failed res →
  let w' := step (ExecSettled res) w in
  outputBlob (ui w') = None ∧ download (ui w') = None ∧
  alerts w' = alerts w ++ ["Encoding failed. See log below for details."] ∧
  progress (ui w') = progress (ui w) ∧
  logLines (ui w') = logLines (ui w) ∧
  pending w' = [] ∧ startDisabled (ui w') = false.
Proof.
  intros w Hpd Hfailed w'.
  destruct (reachable_invariant fs0 evs) as (_ & _ & Hlen & _).
  destruct (reachable_resultInvariant fs0 evs) as (Hpend & _).
  fold w in Hlen, Hpend. destruct (Hpend Hpd) as (Hout & Hfile & Hrdy).
  subst w'. cbn [step].
  destruct (pending w) as [|args rest] eqn:Hpw; [done|].
  assert (rest = []) as -> by (destruct rest; [done|cbn in Hlen; lia]).
  destruct (start_resume_effect res (with_pending [] w))
    as (Hui & Hpd' & _ & _ & Halerts).
  destruct (settled_fields res (ui w)) as (Hf & Hr & Hl & _ & Hproc).
  destruct (settled_failed res (ui w) Hfailed) as (Ho & Hp).
  cbn [ui with_pending] in Hui.
  assert (outputBlob (ui (snd (start_resume res (with_pending [] w)))) = None)
    as Hnone by (by rewrite Hui, Ho).
  split; [exact Hnone|]. split; [unfold download; by rewrite Hnone|].
  split.
  { destruct Halerts as [[_ Ha]|[(fs' & data & -> & Hread) _]]; [exact Ha|].
    cbn in Hfailed. congruence. }
  rewrite Hui, Hp, Hl. repeat split; try done.
  unfold startDisabled. rewrite Hr, Hproc, Hf, Hrdy.
  destruct (file (ui w)); [done|by destruct Hfile].
Qed.

Lemma failed_run_outcome_witness :
  let w := run [Mount; LoadSettled true; PickFile clip; ClickStart]
               (initialWorld emptyStorage) in
  let w' := step (ExecSettled (ExecRejected emptyStorage)) w in
  download (ui w') = None ∧ startDisabled (ui w') = false.
Proof.
  intros w w'.
  destruct (failed_run_outcome emptyStorage
              [Mount; LoadSettled true; PickFile clip; ClickStart]
              (ExecRejected emptyStorage))
    as (_ & Hdl & _ & _ & _ & _ & Hen); [discriminate|exact I|].
  split; [exact Hdl|exact Hen].
Defined.

Lemma successful_run_facts {FS : Type} `{!Storage FS}
    (fs0 : FS) (evs : list (Event FS)) (fs' : FS) (data : bytes) :
  let w := run evs (initialWorld fs0) in
  pending w ≠ [] →
  fs_read outputName fs' = Some data →
  let w' := step (ExecSettled (ExecResolved fs')) w in
  ∃ f, file (ui w) = Some f ∧
       download (ui w') = Some (downloadName (name f), data) ∧
       progress (ui w') = of_Z 100 ∧
       alerts w' = alerts w ∧
       storage w' = cleaned fs' ∧
       pending w' = [] ∧ processing (ui w') = false.
Proof.
  intros w Hpd Hread w'.
  destruct (reachable_invariant fs0 evs) as (_ & _ & Hlen & _).
  destruct (reachable_resultInvariant fs0 evs) as (Hpend & _).
  fold w in Hlen, Hpend. destruct (Hpend Hpd) as (_ & Hfile & _).
  destruct (file (ui w)) as [f|] eqn:Hf; [|done].
  exists f. split; [done|].
  subst w'. cbn [step].
  destruct (pending w) as [|args rest] eqn:Hpw; [done|].
  assert (rest = []) as -> by (destruct rest; [done|cbn in Hlen; lia]).
  destruct (start_resume_effect (ExecResolved fs') (with_pending [] w))
    as (Hui & Hpd' & Hst & _ & Halerts).
  destruct (settled_fields (ExecResolved fs') (ui w)) as (Hf' & _ & _ & _ & Hproc).
  destruct (settled_resolved fs' data (ui w) Hread) as (Ho & Hp).
  cbn [ui with_pending] in Hui.
  rewrite Hui. unfold download. rewrite Ho, Hf', Hf, Hp, Hproc.
  repeat split; try done.
  destruct Halerts as [[Hfailed _]|[_ Ha]]; [|exact Ha].
  cbn in Hfailed. congruence.
Qed.

(** X5.  A run that resolves with a readable [output.mp4] offers exactly
    those bytes for download, under the name derived from the file that
    is selected when the run settles; it shows no alert, sets the progress
    to 100 and leaves the storage cleaned up. *)
Theorem successful_run_outcome {FS : Type} `{!Storage FS}
    (fs0 : FS) (evs : list (Event FS)) (fs' : FS) (data : bytes) :
  let w := run evs (initialWorld fs0) in
  pending w ≠ [] →
  fs_read outputName fs' = Some data →
  let w' := step (ExecSettled (ExecResolved fs')) w in
  ∃ f, file (ui w) = Some f ∧
       download (ui w') = Some (downloadName (name f), data) ∧
       progress (ui w') = of_Z 100 ∧
       alerts w' = alerts w ∧
       storage w' = cleaned fs' ∧
       pending w' = [] ∧ processing (ui w') = false.
Proof. apply successful_run_facts. Qed.

Lemma successful_run_outcome_witness :
  let w := run [Mount; LoadSettled true; PickFile clip; ClickStart]
               (initialWorld emptyStorage) in
  let w' := step (ExecSettled (ExecResolved encodedStorage)) w in
  ∃ f, file (ui w) = Some f ∧
       download (ui w') = Some (downloadName (name f), [Byte.x07]) ∧
       progress (ui w') = of_Z 100 ∧
       alerts w' = alerts w ∧
       storage w' = cleaned encodedStorage ∧
       pending w' = [] ∧ processing (ui w') = false.
Proof.
  apply (successful_run_outcome emptyStorage
           [Mount; LoadSettled true; PickFile clip; ClickStart]
           encodedStorage [Byte.x07]).
  - discriminate.
  - reflexivity.
Defined.

(** X6.  Whenever a result is there (and the Download button is shown),
    [download] does offer it, under a name that ends with [.mp4]. *)
Theorem shown_result_downloads {FS : Type} `{!Storage FS}
    (fs0 : FS) (evs : list (Event FS)) (blob : Blob) :
  let w := run evs (initialWorld fs0) in
  outputBlob (ui w) = Some blob →
  ∃ n, download (ui w) = Some (n, blob) ∧ endsWith n ".mp4" = true.
Proof.
  intros w Hblob.
  destruct (reachable_resultInvariant fs0 evs) as (_ & Hout & _).
  fold w in Hout. unfold download. rewrite Hblob.
  destruct (file (ui w)) as [f|]; [|by destruct Hout; [rewrite Hblob|]].
  eexists. split; [reflexivity|]. apply downloadName_endsWith.
Qed.

Lemma shown_result_downloads_witness :
  let w := run [Mount; LoadSettled true; PickFile clip; ClickStart;
                ExecSettled (ExecResolved encodedStorage)]
               (initialWorld emptyStorage) in
  ∃ n, download (ui w) = Some (n, [Byte.x07]) ∧ endsWith n ".mp4" = true.
Proof.
  apply (shown_result_downloads emptyStorage
           [Mount; LoadSettled true; PickFile clip; ClickStart;
            ExecSettled (ExecResolved encodedStorage)]
           [Byte.x07]).
  reflexivity.
Defined.

(** X8.  A file picked while a run is pending does not stop the run: when
    that run then succeeds, its output (made from the file picked before)
    is offered for download under the name of the newly picked file. *)
Theorem pick_during_run_renames_result {FS : Type} `{!Storage FS}
    (fs0 : FS) (evs : list (Event FS)) (picked : File)
    (fs' : FS) (data : bytes) :
  let w := run evs (initialWorld fs0) in
  pending w ≠ [] →
  fs_read outputName fs' = Some data →
  let w1 := step (PickFile picked) w in
  let w2 := step (ExecSettled (ExecResolved fs')) w1 in
  pending w1 = pending w ∧ calls w1 = calls w ∧
  download (ui w2) = Some (downloadName (name picked), data).
Proof.
  intros w Hpd Hread w1 w2.
  split; [done|]. split; [done|].
  destruct (successful_run_facts fs0 (evs ++ [PickFile picked]) fs' data)
    as (f & Hf & Hdl & _); [by rewrite run_snoc|exact Hread|].
  rewrite run_snoc in Hf, Hdl.
  change (file (ui w1) = Some f) in Hf. cbn in Hf.
  injection Hf as <-. exact Hdl.
Qed.

Lemma pick_during_run_renames_result_witness :
  let w := run [Mount; LoadSettled true; PickFile clip; ClickStart]
               (initialWorld emptyStorage) in
  let w2 := run [PickFile (mkFile "other.mp4" [Byte.x09]);
                 ExecSettled (ExecResolved encodedStorage)] w in
  download (ui w2) = Some ("other.mp4", [Byte.x07]).
Proof.
  intros w w2.
  destruct (pick_during_run_renames_result emptyStorage
              [Mount; LoadSettled true; PickFile clip; ClickStart]
              (mkFile "other.mp4" [Byte.x09]) encodedStorage [Byte.x07])
    as (_ & _ & Hdl); [discriminate|reflexivity|].
  exact Hdl.
Defined.

(** X9.  When [writeFile] rejects, [start] stops there with [processing]
    set: from then on, whatever happens, [processing] stays set, the Start
    button stays disabled, and the encoder is not called again. *)
Theorem rejected_write_blocks_start {FS : Type} `{!Storage FS}
    (fs0 : FS) (evs0 evs : list (Event FS)) (f : File) :
  let w := run evs0 (initialWorld fs0) in
  startDisabled (ui w) = false →
  file (ui w) = Some f →
  fs_write inputName (content f) (storage w) = None →
  let w' := run evs (step ClickStart w) in
  processing (ui w') = true ∧ startDisabled (ui w') = true ∧
  pending w' = [] ∧
  calls w' = calls w ++ [CallWriteFile inputName (content f)].
Proof.
  intros w Hen Hf Hwrite w'.
  destruct (reachable_invariant fs0 evs0) as (_ & _ & _ & Hproc & _ & Hready).
  fold w in Hproc, Hready.
  pose proof Hen as Hen'. unfold startDisabled in Hen'.
  apply orb_false_elim in Hen' as [Hen' Hp].
  apply orb_false_elim in Hen' as [Hrdy _]. apply negb_false_iff in Hrdy.
  assert (pending w = []) as Hnil.
  { destruct (pending w); [done|]. rewrite Hproc in Hp; done. }
  assert (processing (ui (step ClickStart w)) = true ∧
          pending (step ClickStart w) = [] ∧
          calls (step ClickStart w) =
            calls w ++ [CallWriteFile inputName (content f)])
    as (Hp1 & Hpd1 & Hcs1).
  { cbn [step]. rewrite Hen.
    destruct (start_issue_effect w)
      as [(_ & [Hnone|Href]) | (f' & Hf' & _ & Hui & _ & Hcases)].
    - congruence.
    - rewrite Hready in Href; done.
    - rewrite Hf in Hf'. injection Hf' as <-.
      destruct Hcases as [(_ & Hcs & Hpd & _) | (fs1 & Hw & _)];
        [|congruence].
      rewrite Hui, Hcs, Hpd. done. }
  destruct (stuck_forever evs (step ClickStart w) Hp1 Hpd1) as (Hp' & Hpd' & Hcs').
  fold w' in Hp', Hpd', Hcs'.
  split; [exact Hp'|]. split; [|split; [exact Hpd'|by rewrite Hcs']].
  unfold startDisabled. rewrite Hp'. by rewrite !orb_true_r.
Qed.

Lemma rejected_write_blocks_start_witness :
  let w := @run unit rejecting [Mount; LoadSettled true; PickFile clip]
             (initialWorld ()) in
  let w' := @run unit rejecting [Log "x"; PickFile clip; ClickStart]
              (@step unit rejecting ClickStart w) in
  processing (ui w') = true ∧ startDisabled (ui w') = true ∧
  pending w' = [] ∧
  calls w' = calls w ++ [CallWriteFile inputName (content clip)].
Proof.
  refine (@rejected_write_blocks_start unit rejecting ()
            [Mount; LoadSettled true; PickFile clip]
            [Log "x"; PickFile clip; ClickStart] clip _ _ _);
    vm_compute; reflexivity.
Defined.

(** X10.  From any reachable world, after any sequence of log events the
    log buffer holds the last 200 of the lines it held before followed by
    the new messages, in their order. *)
Theorem log_buffer_is_last_200 {FS : Type} `{!Storage FS}
    (fs0 : FS) (evs : list (Event FS)) (messages : list string) :
  let w := run evs (initialWorld fs0) in
  logLines (ui (run (Log <$> messages) w)) =
    slice_last 200 (logLines (ui w) ++ messages).
Proof.
  intros w. apply logs_buffer. apply (reachable_invariant fs0 evs).
Qed.

(** X12.  With the two size effects run after every step: the original
    size shown is always that of the selected file, and the compressed size
    is that of the result whenever there is one; but picking a new file,
    which clears the result, keeps the compressed size of the previous
    result next to the new file's original size. *)
Theorem sizes_follow_file_and_result {FS : Type} `{!Storage FS}
    (fs0 : FS) (evs : list (Event FS)) :
  let v := runView evs (initialWorld fs0, initialSizes) in
  let w := fst v in
  let z := snd v in
  w = run evs (initialWorld fs0) ∧
  origSize z = (λ f, byteLength (content f)) <$> file (ui w) ∧
  (∀ blob, outputBlob (ui w) = Some blob → outSize z = Some (byteLength blob)) ∧
  (∀ picked,
      let v' := stepView (PickFile picked) v in
      outputBlob (ui (fst v')) = None ∧
      outSize (snd v') = outSize z ∧
      origSize (snd v') = Some (byteLength (content picked))).
Proof.
  cbv zeta. split; [apply runView_fst|].
  split; [|split].
  - induction evs as [|e evs IH] using rev_ind; [done|].
    rewrite runView_snoc. unfold stepView at 1 2. cbn [fst snd].
    set (v := runView evs (initialWorld fs0, initialSizes)) in *.
    destruct (step_file e (fst v)) as [Hsame|(picked & -> & Hpick)].
    + rewrite Hsame. unfold sizeEffects.
      destruct (file (ui (step e (fst v)))) as [f|] eqn:Hf;
        rewrite <- Hsame; cbn [fmap option_fmap option_map];
        destruct (outputBlob (ui (step e (fst v)))); cbn; try done.
      all: by rewrite IH, <- Hsame.
    + rewrite Hpick. unfold sizeEffects. rewrite Hpick.
      by destruct (outputBlob (ui (step (PickFile picked) (fst v)))).
  - intros blob Hblob.
    destruct evs as [|e evs _] using rev_ind; [done|].
    rewrite runView_snoc in Hblob |- *. unfold stepView in *.
    cbn [fst snd] in *. unfold sizeEffects. by rewrite Hblob.
  - intros picked. unfold stepView, sizeEffects. cbn. done.
Qed.

(** The calls a step adds: none that is an [exec], or the write of the
    input followed by the [exec] of an argument list built by [start]. *)
Lemma step_calls {FS : Type} `{!Storage FS} (e : Event FS) (w : World FS) :
  ∃ new, calls (step e w) = calls w ++ new ∧
         ((∀ args, CallExec args ∉ new) ∨
          ∃ d o, new = [CallWriteFile inputName d; CallExec (buildArgs o)]).
Proof.
  assert (∃ new, calls w = calls w ++ new ∧
                 ((∀ args, CallExec args ∉ new) ∨
                  ∃ d o, new = [CallWriteFile inputName d;
                                CallExec (buildArgs o)])) as Hsame.
  { exists []. rewrite app_nil_r. split; [done|]. left.
    intros args Hin. by apply elem_of_nil in Hin. }
  destruct e; cbn [step]; try exact Hsame.
  - unfold load_issue. by destruct (ffmpegRef w).
  - unfold load_resume. by destruct (loading w).
  - destruct (startDisabled (ui w)); [exact Hsame|].
    destruct (start_issue_effect w)
      as [[-> _] | (f & _ & _ & _ & _ & Hcases)]; [exact Hsame|].
    destruct Hcases as [(_ & -> & _) | (fs1 & _ & -> & _)].
    + eexists. split; [reflexivity|]. left.
      intros args Hin. apply list_elem_of_singleton in Hin. discriminate.
    + eexists. split; [reflexivity|]. right. by eexists _, _.
  - destruct (pending w) as [|args rest]; [exact Hsame|].
    destruct (start_resume_effect res (with_pending rest w))
      as (_ & _ & _ & (new & -> & Hquiet) & _).
    exists new. split; [done|by left].
Qed.

(** X13.  Every [exec] the component has asked for carries an argument
    list built by [start]: it begins with [-i input.mp4], the name under
    which the input was written, and ends with [output.mp4], the name
    that is read back and cleaned up afterwards. *)
Theorem exec_uses_the_fixed_names {FS : Type} `{!Storage FS}
    (fs0 : FS) (evs : list (Event FS)) (args : list string) :
  let w := run evs (initialWorld fs0) in
  CallExec args ∈ calls w →
  ∃ o rest, args = buildArgs o ∧
            args = "-i" :: inputName :: rest ∧
            last args = Some outputName.
Proof.
  cbv zeta. induction evs as [|e evs IH] using rev_ind.
  { intros Hin. by apply elem_of_nil in Hin. }
  rewrite run_snoc.
  destruct (step_calls e (run evs (initialWorld fs0)))
    as (new & -> & [Hquiet | (d & o & ->)]).
  - intros Hin. apply elem_of_app in Hin as [Hin|Hin]; [by apply IH|].
    by apply Hquiet in Hin.
  - intros Hin. apply elem_of_app in Hin as [Hin|Hin]; [by apply IH|].
    apply elem_of_cons in Hin as [Hin|Hin]; [discriminate|].
    apply list_elem_of_singleton in Hin. injection Hin as ->.
    assert (∃ rest, buildArgs o = "-i" :: inputName :: rest) as [rest Hrest].
    { unfold buildArgs. cbv zeta.
      destruct (copyMetadata o), (negb (String.eqb (resolution o) "source"));
        eexists; reflexivity. }
    exists o, rest. split; [reflexivity|]. split; [exact Hrest|].
    unfold buildArgs. cbv zeta. apply last_snoc.
Qed.

Lemma exec_uses_the_fixed_names_witness :
  let w := run [Mount; LoadSettled true; PickFile clip; ClickStart]
               (initialWorld emptyStorage) in
  ∃ o rest, buildArgs defaultOptions = buildArgs o ∧
            buildArgs defaultOptions = "-i" :: inputName :: rest ∧
            last (buildArgs defaultOptions) = Some outputName.
Proof.
  refine (exec_uses_the_fixed_names emptyStorage
            [Mount; LoadSettled true; PickFile clip; ClickStart]
            (buildArgs defaultOptions) _).
  vm_compute. apply list_elem_of_In. right. left. reflexivity.
Defined.
